(** * A verification model of the graph IR, its rewrite engine and the Scan
    pushout rewrites of aesara.

    The repository's files hold the scan rewrite tests
    (tests/scan/test_opt.py); the FunctionGraph, the rewrite database and
    the Scan op they exercise are modelled after the specification. *)

From stdpp Require Import base gmap list strings.
From Stdlib Require QArith.
From Stdlib Require Import Relations.

(** The errors of the specification's error taxonomy. *)
Inductive error := TypeMismatch | InconsistencyError | ContractError.

(** ** The function graph *)
Module FG.

(** Modelled from the spec: Variable and Apply (aesara.graph.basic). A
    variable is identified by an id and carries a type descriptor (a code
    for its rank and dtype); equality of variables is identity. *)
Record variable := mkVar { vid : nat; vty : nat }.

#[global] Instance variable_eq_dec : EqDecision variable.
Proof. solve_decision. Defined.
#[global] Instance variable_countable : Countable variable.
Proof.
  refine (inj_countable' (fun v => (vid v, vty v)) (fun p => mkVar p.1 p.2) _).
  by intros [].
Defined.

Record Apply := mkApply {
  ap_id : nat;
  ap_op : string;
  ap_inputs : list variable;
  ap_outputs : list variable
}.

#[global] Instance Apply_eq_dec : EqDecision Apply.
Proof. solve_decision. Defined.

(** A client is a consumer edge: [(Some a, i)] is input position [i] of the
    node with id [a], [(None, i)] is position [i] of the graph's outputs. *)
Abbreviation client := (option nat * nat)%type.

(** Modelled from the spec: FunctionGraph (aesara.graph.fg): declared inputs,
    outputs, the Apply nodes in insertion order and the client index. *)
Record FunctionGraph := mkFG {
  fg_inputs : list variable;
  fg_outputs : list variable;
  fg_apply_nodes : list Apply;
  fg_clients : gmap variable (gset client)
}.

Definition with_clients (g : FunctionGraph) (m : gmap variable (gset client)) :=
  mkFG (fg_inputs g) (fg_outputs g) (fg_apply_nodes g) m.

(** [get_clients]: the current consumer set of a variable. *)
Definition get_clients (m : gmap variable (gset client)) (v : variable) : gset client :=
  default ∅ (m !! v).

Definition clients_of (g : FunctionGraph) (v : variable) : gset client :=
  get_clients (fg_clients g) v.

Fixpoint node_by_id (ns : list Apply) (a : nat) : option Apply :=
  match ns with
  | [] => None
  | n :: ns' => if Nat.eq_dec (ap_id n) a then Some n else node_by_id ns' a
  end.

(** The variable currently sitting at a client position. *)
Definition pos_var (g : FunctionGraph) (c : client) : option variable :=
  match c with
  | (None, i) => fg_outputs g !! i
  | (Some a, i) => node_by_id (fg_apply_nodes g) a ≫= fun n => ap_inputs n !! i
  end.

Definition set_input (n : Apply) (i : nat) (v : variable) : Apply :=
  mkApply (ap_id n) (ap_op n) (<[i:=v]> (ap_inputs n)) (ap_outputs n).

Fixpoint set_input_first (ns : list Apply) (a i : nat) (v : variable) : list Apply :=
  match ns with
  | [] => []
  | n :: ns' =>
      if Nat.eq_dec (ap_id n) a then set_input n i v :: ns'
      else n :: set_input_first ns' a i v
  end.

(** Write [v] at a client position (the edge itself, not the index). *)
Definition set_pos (g : FunctionGraph) (c : client) (v : variable) : FunctionGraph :=
  match c with
  | (None, i) => mkFG (fg_inputs g) (<[i:=v]> (fg_outputs g)) (fg_apply_nodes g) (fg_clients g)
  | (Some a, i) =>
      mkFG (fg_inputs g) (fg_outputs g) (set_input_first (fg_apply_nodes g) a i v) (fg_clients g)
  end.

(** Client index updates; a variable whose consumer set becomes empty leaves
    the index. *)
Definition cl_del (v : variable) (c : client) (m : gmap variable (gset client)) :=
  let X := get_clients m v ∖ {[c]} in
  if decide (X = ∅) then delete v m else <[v:=X]> m.

Definition cl_add (v : variable) (c : client) (m : gmap variable (gset client)) :=
  <[v:={[c]} ∪ get_clients m v]> m.

(** Move the edge at [c] from [r] to [nw], updating the index with it. *)
Definition move (c : client) (r nw : variable) (g : FunctionGraph) : FunctionGraph :=
  set_pos (with_clients g (cl_add nw c (cl_del r c (fg_clients g)))) c nw.

(** A change of the history: the edge at the client moved from the first
    variable to the second. *)
Abbreviation event := (client * variable * variable)%type.

(** [change_input]: redirect one client edge; the variable found there must
    have the type of the new one. *)
Definition change_input (g : FunctionGraph) (c : client) (nw : variable)
    : (FunctionGraph * option event) + error :=
  match pos_var g c with
  | None => inl (g, None)
  | Some r =>
      if decide (r = nw) then inl (g, None)
      else if decide (vty r = vty nw) then inl (move c r nw g, Some (c, r, nw))
      else inr TypeMismatch
  end.

Fixpoint apply_changes (cs : list client) (nw : variable) (g : FunctionGraph)
    (log : list event) : (FunctionGraph * list event) + (error * FunctionGraph * list event) :=
  match cs with
  | [] => inl (g, log)
  | c :: cs' =>
      match change_input g c nw with
      | inr e => inr (e, g, log)
      | inl (g', None) => apply_changes cs' nw g' log
      | inl (g', Some ev) => apply_changes cs' nw g' (ev :: log)
      end
  end.

(** Undo the history, newest change first. *)
Definition revert (log : list event) (g : FunctionGraph) : FunctionGraph :=
  foldl (fun g' (ev : event) => let '(c, r, nw) := ev in move c nw r g') g log.

(** ** Cycle check by Kahn's algorithm *)

(** Some remaining node produces [v]. *)
Definition produced_by (ns : list Apply) (v : variable) : bool :=
  existsb (fun n => bool_decide (v ∈ ap_outputs n)) ns.

(** Every input of [n] is already available: no remaining node (not even [n]
    itself) still has to produce it. *)
Definition ready (ns : list Apply) (n : Apply) : bool :=
  forallb (fun v => negb (produced_by ns v)) (ap_inputs n).

Fixpoint kahn (fuel : nat) (ns : list Apply) : bool :=
  match ns with
  | [] => true
  | _ :: _ =>
      match fuel with
      | 0 => false
      | S f =>
          match find (ready ns) ns with
          | Some n => kahn f (remove Apply_eq_dec n ns)
          | None => false
          end
      end
  end.

Definition acyclicb (g : FunctionGraph) : bool :=
  kahn (length (fg_apply_nodes g)) (fg_apply_nodes g).

(** [dep_in ns a b]: node [a] of [ns] reads an output of node [b] of [ns]. *)
Definition dep_in (ns : list Apply) (a b : Apply) : Prop :=
  In a ns /\ In b ns /\ exists v, In v (ap_inputs a) /\ In v (ap_outputs b).

(** The DAG property: no Apply transitively depends on its own output. *)
Definition acyclic (g : FunctionGraph) : Prop :=
  forall a, ~ clos_trans Apply (dep_in (fg_apply_nodes g)) a a.

Inductive outcome := Done | Raised (e : error).

(** [replace(old, new)]: redirect every client of [old] to [new], validate
    the DAG property, and roll the history back when anything fails. *)
Definition replace (g : FunctionGraph) (old nw : variable) : outcome * FunctionGraph :=
  if decide (vty old = vty nw) then
    match apply_changes (elements (clients_of g old)) nw g [] with
    | inl (g1, log) =>
        if acyclicb g1 then (Done, g1) else (Raised InconsistencyError, revert log g1)
    | inr (e, g1, log) => (Raised e, revert log g1)
    end
  else (Raised TypeMismatch, g).

(** A pass of replacements: a failed one is discarded and the pass goes on. *)
Fixpoint replace_all (reqs : list (variable * variable)) (g : FunctionGraph)
    : list outcome * FunctionGraph :=
  match reqs with
  | [] => ([], g)
  | (old, nw) :: reqs' =>
      let '(o, g1) := replace g old nw in
      let '(os, g2) := replace_all reqs' g1 in (o :: os, g2)
  end.

(** The graph a replacement of [old] by [nw] proposes: every input edge
    reading [old] reads [nw]; nothing else of a node changes. *)
Definition subst_var (old nw v : variable) : variable := if decide (v = old) then nw else v.

Definition redirect_nodes (ns : list Apply) (old nw : variable) : list Apply :=
  (fun n => mkApply (ap_id n) (ap_op n) (subst_var old nw <$> ap_inputs n) (ap_outputs n)) <$> ns.

(** What a node keeps when its input edges move: its id, its operation and
    its outputs. *)
Definition ap_shape (n : Apply) : nat * string * list variable := (ap_id n, ap_op n, ap_outputs n).

(** The client index of a graph, built from its edges ([import]). *)
Definition edges (outs : list variable) (ns : list Apply) : list (variable * client) :=
  imap (fun i v => (v, (None, i))) outs ++
  (ns ≫= fun n => imap (fun k v => (v, (Some (ap_id n), k))) (ap_inputs n)).

Definition index_of (es : list (variable * client)) : gmap variable (gset client) :=
  foldr (fun e m => cl_add e.1 e.2 m) ∅ es.

Definition make_fgraph (ins outs : list variable) (ns : list Apply) : FunctionGraph :=
  mkFG ins outs ns (index_of (edges outs ns)).

(** The client index agrees with the edges, and stores no empty set. *)
Definition consistent (g : FunctionGraph) : Prop :=
  (forall v c, c ∈ clients_of g v <-> pos_var g c = Some v) /\
  (forall v X, fg_clients g !! v = Some X -> X ≠ ∅).

End FG.

(** ** The Scan construct *)
Module Scan.
Import QArith.
Local Close Scope Q_scope.

(** Runtime values of the tensors in a Scan body: integer scalars (step
    indices), vectors and matrices (a list of rows) of numbers. Numbers are
    exact rationals. *)
Inductive value :=
| VInt (z : Z)
| VVec (x : list Q)
| VMat (w : list (list Q)).

(** The nested graph of a Scan body, each output as the expression tree that
    computes it from the inner inputs [EIn k]. *)
Inductive expr :=
| EIn (k : nat)
| EConst (v : value)
| EAdd (a b : expr)
| EMul (a b : expr)
| ESqr (a : expr)
| EOneHot (n : nat) (a : expr)
| EDot (a b : expr).

Definition dotp (x y : list Q) : Q := foldr Qplus 0%Q (zip_with Qmult x y).

Definition col (j : nat) (w : list (list Q)) : list Q := (fun row => nth j row 0%Q) <$> w.

Definition ncols (w : list (list Q)) : nat := length (hd [] w).

(** [dot(x, w)] for a vector and a matrix. *)
Definition vecmat (x : list Q) (w : list (list Q)) : list Q :=
  (fun j => dotp x (col j w)) <$> seq 0 (ncols w).

(** [Dot]: vector-matrix, matrix-matrix and vector-vector products; the
    inner dimensions must agree. *)
Definition dot_val (a b : value) : option value :=
  match a, b with
  | VVec x, VMat w => if decide (length x = length w) then Some (VVec (vecmat x w)) else None
  | VMat xs, VMat w =>
      if decide (Forall (fun x => length x = length w) xs)
      then Some (VMat ((fun x => vecmat x w) <$> xs)) else None
  | VVec x, VVec y => if decide (length x = length y) then Some (VMat [[dotp x y]]) else None
  | _, _ => None
  end.

(** Elementwise binary operations on equal shapes. *)
Definition elemwise (f : Q -> Q -> Q) (a b : value) : option value :=
  match a, b with
  | VVec x, VVec y => if decide (length x = length y) then Some (VVec (zip_with f x y)) else None
  | _, _ => None
  end.

Definition one_hot (n : nat) (a : value) : option value :=
  match a with
  | VInt z => Some (VVec ((fun j => if decide (j = Z.to_nat z) then 1%Q else 0%Q) <$> seq 0 n))
  | _ => None
  end.

Fixpoint eval_expr (env : list value) (e : expr) : option value :=
  match e with
  | EIn k => env !! k
  | EConst v => Some v
  | EAdd a b => x ← eval_expr env a; y ← eval_expr env b; elemwise Qplus x y
  | EMul a b => x ← eval_expr env a; y ← eval_expr env b; elemwise Qmult x y
  | ESqr a => x ← eval_expr env a; elemwise Qmult x x
  | EOneHot n a => x ← eval_expr env a; one_hot n x
  | EDot a b => x ← eval_expr env a; y ← eval_expr env b; dot_val x y
  end.

Fixpoint inputs_of (e : expr) : list nat :=
  match e with
  | EIn k => [k]
  | EConst _ => []
  | EAdd a b | EMul a b | EDot a b => inputs_of a ++ inputs_of b
  | ESqr a | EOneHot _ a => inputs_of a
  end.

(** The nested function graph: its number of inputs and its outputs. *)
Record inner_graph := mkInner { ig_n_inputs : nat; ig_outputs : list expr }.

(** A Scan op: the inner graph and the sequencing contract. The inner inputs
    are the sequences, then the recurrent (sitsot) states, then the
    non-sequences; its outputs are the sitsot state updates, then the
    store-all-steps (nitsot) outputs. *)
Record scan_op := mkScan {
  n_seqs : nat;
  n_sitsot : nat;
  n_nitsot : nat;
  n_nonseqs : nat;
  body : inner_graph
}.

Definition is_state_input (sc : scan_op) (k : nat) : bool :=
  bool_decide (n_seqs sc <= k < n_seqs sc + n_sitsot sc).

Definition is_nonseq_input (sc : scan_op) (k : nat) : bool :=
  bool_decide (n_seqs sc + n_sitsot sc <= k < n_seqs sc + n_sitsot sc + n_nonseqs sc).

Definition reads_state (sc : scan_op) (e : expr) : bool :=
  existsb (is_state_input sc) (inputs_of e).

(** The contract between the declared roles and the nested graph: its input
    and output arities, and every leaf is one of its inputs. *)
Definition contract_ok (sc : scan_op) : bool :=
  bool_decide (ig_n_inputs (body sc) = n_seqs sc + n_sitsot sc + n_nonseqs sc) &&
  bool_decide (length (ig_outputs (body sc)) = n_sitsot sc + n_nitsot sc) &&
  forallb (fun e => forallb (fun k => bool_decide (k < ig_n_inputs (body sc))) (inputs_of e))
    (ig_outputs (body sc)).

(** Scan construction: a malformed contract is a [ContractError]. *)
Definition make_scan (ns nsit nnit nnon : nat) (ig : inner_graph) : scan_op + error :=
  let sc := mkScan ns nsit nnit nnon ig in
  if contract_ok sc then inl sc else inr ContractError.

(** One step: the inner inputs at step [t], then the inner outputs. *)
Definition scan_step (sc : scan_op) (seqs : list (list value)) (nonseqs : list value)
    (t : nat) (states : list value) : option (list value) :=
  xs ← mapM (fun s => s !! t) seqs;
  mapM (eval_expr (xs ++ states ++ nonseqs)) (ig_outputs (body sc)).

Fixpoint scan_loop (sc : scan_op) (seqs : list (list value)) (nonseqs : list value)
    (n t : nat) (states : list value) : option (list (list value)) :=
  match n with
  | 0 => Some []
  | S n' =>
      outs ← scan_step sc seqs nonseqs t states;
      rest ← scan_loop sc seqs nonseqs n' (S t) (take (n_sitsot sc) outs);
      Some (outs :: rest)
  end.

(** The values of inner output [o] at all steps, stacked. *)
Definition column (o : nat) (steps : list (list value)) : list value :=
  (fun outs => nth o outs (VInt 0)) <$> steps.

Definition columns (m : nat) (steps : list (list value)) : list (list value) :=
  (fun o => column o steps) <$> seq 0 m.

(** The outer outputs of a Scan: for each inner output, its values at all
    steps. The outer inputs must match the declared roles in number. *)
Definition scan_eval (sc : scan_op) (n_steps : nat) (seqs : list (list value))
    (inits nonseqs : list value) : option (list (list value)) :=
  if decide (length seqs = n_seqs sc /\ length inits = n_sitsot sc /\
             length nonseqs = n_nonseqs sc) then
    steps ← scan_loop sc seqs nonseqs n_steps 0 inits;
    Some (columns (length (ig_outputs (body sc))) steps)
  else None.

(** The outer graph around one Scan node: the Scan, then the Dot products
    pushed out of its body, each [(k, j)] applied to all steps of output
    [k] with non-sequence [j], in list order. *)
Record pushed := mkPushed { p_scan : scan_op; p_post : list (nat * nat) }.

Fixpoint apply_post (post : list (nat * nat)) (nonseqs : list value)
    (res : list (list value)) : option (list (list value)) :=
  match post with
  | [] => Some res
  | (k, j) :: post' =>
      w ← nonseqs !! j;
      ys ← res !! k;
      ys' ← mapM (fun y => dot_val y w) ys;
      apply_post post' nonseqs (<[k:=ys']> res)
  end.

Definition eval_pushed (p : pushed) (n_steps : nat) (seqs : list (list value))
    (inits nonseqs : list value) : option (list (list value)) :=
  res ← scan_eval (p_scan p) n_steps seqs inits nonseqs;
  apply_post (p_post p) nonseqs res.

(** The Dot of output [k] of one step, with the matrix [w]. *)
Definition fix_out (k : nat) (w : value) (outs : list value) : option (list value) :=
  y ← outs !! k; y' ← dot_val y w; Some (<[k:=y']> outs).

(** A pushable-out Dot at output [k]: a store-all-steps output whose value is
    [dot(e, w)] with [w] a non-sequence input and [e] reading no recurrent
    state. *)
Definition candidate (sc : scan_op) (k : nat) (o : expr) : option (expr * nat) :=
  match o with
  | EDot e (EIn i) =>
      if bool_decide (n_sitsot sc <= k) && is_nonseq_input sc i && negb (reads_state sc e)
      then Some (e, i - n_seqs sc - n_sitsot sc) else None
  | _ => None
  end.

Fixpoint find_candidate (sc : scan_op) (k : nat) (outs : list expr)
    : option (nat * expr * nat) :=
  match outs with
  | [] => None
  | o :: outs' =>
      match candidate sc k o with
      | Some (e, j) => Some (k, e, j)
      | None => find_candidate sc (S k) outs'
      end
  end.

Definition set_output (sc : scan_op) (k : nat) (e : expr) : scan_op :=
  mkScan (n_seqs sc) (n_sitsot sc) (n_nitsot sc) (n_nonseqs sc)
    (mkInner (ig_n_inputs (body sc)) (<[k:=e]> (ig_outputs (body sc)))).

(** The pushout rewrite: the inner output becomes the Dot's vector operand,
    and the Dot is applied once outside the loop to all its steps. *)
Definition push_out_dot (p : pushed) : option pushed :=
  match find_candidate (p_scan p) 0 (ig_outputs (body (p_scan p))) with
  | Some (k, e, j) => Some (mkPushed (set_output (p_scan p) k e) ((k, j) :: p_post p))
  | None => None
  end.

End Scan.

(** ** The rewrite engine *)
Module Engine.

(** A compilation profile: the tags to include and exclude, and the cap on
    the number of passes. *)
Record profile := mkProfile {
  prof_include : list string;
  prof_exclude : list string;
  prof_max_passes : nat
}.

Definition including (p : profile) (t : string) : profile :=
  mkProfile (t :: prof_include p) (prof_exclude p) (prof_max_passes p).

Definition excluding (p : profile) (t : string) : profile :=
  mkProfile (prof_include p) (t :: prof_exclude p) (prof_max_passes p).

Section Engine.
Context {G N : Type} `{EqDecision N}.

(** What a rule does: a local rewrite is tried at one node of the graph, a
    global rewrite at the whole graph; [None] declares no change (a
    replacement that failed validation is discarded the same way). *)
Inductive action :=
| Local (f : N -> G -> option G)
| Global (f : G -> option G).

(** A named, tagged rewrite rule. *)
Record rule := mkRule {
  r_name : string;
  r_tags : list string;
  r_action : action
}.

(** A rule runs when its name or one of its tags is included and none is
    excluded. *)
Definition selected (p : profile) (r : rule) : bool :=
  existsb (fun t => bool_decide (t ∈ prof_include p)) (r_name r :: r_tags r) &&
  negb (existsb (fun t => bool_decide (t ∈ prof_exclude p)) (r_name r :: r_tags r)).

(** The database filter: the selected rules, in priority order. *)
Definition select (p : profile) (db : list rule) : list rule := List.filter (selected p) db.

(** One visit of node [n]: the first local rule, in priority order, that
    changes the graph; only one fires per visit. *)
Fixpoint fire_at (rules : list rule) (n : N) (g : G) : option G :=
  match rules with
  | [] => None
  | r :: rs =>
      match r_action r with
      | Local f => match f n g with Some g' => Some g' | None => fire_at rs n g end
      | Global _ => fire_at rs n g
      end
  end.

(** The global rewrites, each once, in priority order; [true] when one of
    them changed the graph. *)
Fixpoint run_globals (rules : list rule) (g : G) : G * bool :=
  match rules with
  | [] => (g, false)
  | r :: rs =>
      match r_action r with
      | Global f =>
          match f g with
          | Some g' => ((run_globals rs g').1, true)
          | None => run_globals rs g
          end
      | Local _ => run_globals rs g
      end
  end.

(** The nodes of a graph in topological order. *)
Variable toposort : G -> list N.

(** After a rewrite at [n] turned [g] into [g']: the nodes it created, then
    [n] itself again if it is still in the graph. *)
Definition enqueued (n : N) (g g' : G) : list N :=
  list_difference (toposort g') (toposort g) ++
  (if bool_decide (n ∈ toposort g') then [n] else []).

(** The work list of the local rewrites, served first in first out: a node
    that left the graph is dropped, a node where a rule fires enqueues what
    [enqueued] gives, until the list is empty. [fuel] bounds the number of
    visits: [None] when the list did not run empty within it. The flag
    records whether a rule fired. *)
Fixpoint worklist (rules : list rule) (fuel : nat) (wl : list N) (g : G) (changed : bool)
    : option (G * bool) :=
  match wl with
  | [] => Some (g, changed)
  | n :: wl' =>
      match fuel with
      | 0 => None
      | S f =>
          if bool_decide (n ∈ toposort g) then
            match fire_at rules n g with
            | Some g' => worklist rules f (wl' ++ enqueued n g g') g' true
            | None => worklist rules f wl' g changed
            end
          else worklist rules f wl' g changed
      end
  end.

(** A pass: the local rewrites over a work list holding every node, until
    no enqueued node yields a change, then the global rewrites. *)
Definition pass (rules : list rule) (fuel : nat) (g : G) : option (G * bool) :=
  match worklist rules fuel (toposort g) g false with
  | Some (g1, b1) => let '(g2, b2) := run_globals rules g1 in Some (g2, b1 || b2)
  | None => None
  end.

(** Passes until one produces no change ([true]: converged) or [cap] passes
    ran ([false]: the convergence warning, the last graph is kept). *)
Fixpoint run (rules : list rule) (fuel : nat) (cap : nat) (g : G) : option (G * bool) :=
  match cap with
  | 0 => Some (g, false)
  | S c =>
      match pass rules fuel g with
      | Some (g1, true) => run rules fuel c g1
      | Some (g1, false) => Some (g1, true)
      | None => None
      end
  end.

Definition compile (p : profile) (db : list rule) (fuel : nat) (g : G) : option (G * bool) :=
  run (select p db) fuel (prof_max_passes p) g.

(** The engine as a relation, the work list served in any order: any
    enqueued node may be visited next. *)
Inductive worklist_rel (rules : list rule) : list N -> G -> bool -> G -> bool -> Prop :=
| wr_empty g b : worklist_rel rules [] g b g b
| wr_skip l1 n l2 g b g' b' :
    (n ∉ toposort g \/ fire_at rules n g = None) ->
    worklist_rel rules (l1 ++ l2) g b g' b' ->
    worklist_rel rules (l1 ++ n :: l2) g b g' b'
| wr_fire l1 n l2 g g1 b g' b' :
    n ∈ toposort g -> fire_at rules n g = Some g1 ->
    worklist_rel rules (l1 ++ l2 ++ enqueued n g g1) g1 true g' b' ->
    worklist_rel rules (l1 ++ n :: l2) g b g' b'.

Inductive pass_rel (rules : list rule) (g : G) : G -> bool -> Prop :=
| pass_step g1 b1 g2 b2 :
    worklist_rel rules (toposort g) g false g1 b1 ->
    run_globals rules g1 = (g2, b2) ->
    pass_rel rules g g2 (b1 || b2).

Inductive engine_rel (rules : list rule) : nat -> G -> G -> bool -> Prop :=
| er_cap g : engine_rel rules 0 g g false
| er_converged c g g1 : pass_rel rules g g1 false -> engine_rel rules (S c) g g1 true
| er_next c g g1 g2 b :
    pass_rel rules g g1 true -> engine_rel rules c g1 g2 b -> engine_rel rules (S c) g g2 b.

End Engine.

Arguments action : clear implicits.
Arguments rule : clear implicits.
Arguments mkRule {G N}.
Arguments Local {G N}.
Arguments Global {G N}.

End Engine.

(** ** The Scan rewrites in the rule database *)
Module ScanRewrite.
Import Scan Engine.

(** The nodes of the outer graph: the Scan node ([None]), then the Dot
    products applied after the loop, the last one created first, as they
    are applied ([Some m]: the [m]-th product created). *)
Definition pushed_toposort (p : pushed) : list (option nat) :=
  None :: (Some <$> reverse (seq 0 (length (p_post p)))).

(** The pushout is a local rewrite of Scan nodes. *)
Definition pushout_at (n : option nat) (p : pushed) : option pushed :=
  match n with
  | None => push_out_dot p
  | Some _ => None
  end.

(** The pushout of a Dot out of a Scan's body, registered under the name the
    tests exclude it by. *)
Definition scan_pushout_add : rule pushed (option nat) :=
  mkRule "scan_pushout_add" ["fast_run"; "more_mem"; "scan"] (Local pushout_at).

Definition scan_db : list (rule pushed (option nat)) := [scan_pushout_add].

(** The default mode of the tests (aesara's FAST_RUN), with a pass cap. *)
Definition default_mode : profile := mkProfile ["fast_run"] [] 10.

Definition opt_mode : profile := including default_mode "scan".
Definition no_opt_mode : profile := excluding default_mode "scan_pushout_add".

(** The Dot products in the body's outputs. *)
Fixpoint expr_dots (e : expr) : nat :=
  match e with
  | EIn _ | EConst _ => 0
  | EAdd a b | EMul a b => expr_dots a + expr_dots b
  | ESqr a | EOneHot _ a => expr_dots a
  | EDot a b => S (expr_dots a + expr_dots b)
  end.

Definition n_dots (p : pushed) : nat := sum_list_with expr_dots (ig_outputs (body (p_scan p))).

(** Visits enough for every pass from [p]: each node once, and two more
    entries per pushout. *)
Definition scan_fuel (p : pushed) : nat := 1 + length (p_post p) + 2 * n_dots p.

(** The engine on a graph around one Scan node. *)
Definition run_scan (pr : profile) (p : pushed) : pushed * bool :=
  match compile pushed_toposort pr scan_db (scan_fuel p) p with
  | Some r => r
  | None => (p, false)
  end.

(** Compile a graph with one Scan node and no pushed-out product yet. *)
Definition compile_scan (p : profile) (sc : scan_op) : pushed :=
  (run_scan p (mkPushed sc [])).1.

(** The outcome of the engine on such a graph, in closed form: the pushout
    repeated while it applies (at most once per Dot product), and the
    engine's passes over it. *)
Fixpoint push_fix (n : nat) (p : pushed) : pushed :=
  match n with
  | 0 => p
  | S m => match push_out_dot p with Some p' => push_fix m p' | None => p end
  end.

Definition push_all (p : pushed) : pushed := push_fix (n_dots p) p.

Definition pushable (p : pushed) : bool := if push_out_dot p then true else false.

Definition scan_local (pr : profile) (p : pushed) : pushed * bool :=
  if selected pr scan_pushout_add then (push_all p, pushable p) else (p, false).

Fixpoint scan_engine (pr : profile) (cap : nat) (p : pushed) : pushed * bool :=
  match cap with
  | 0 => (p, false)
  | S c => let '(p1, b1) := scan_local pr p in if b1 then scan_engine pr c p1 else (p1, true)
  end.

End ScanRewrite.

(** ** The concrete graphs of the tests and scenarios *)
Module Scenarios.
Import FG Scan Engine ScanRewrite.
Import QArith.
Local Close Scope Q_scope.

(** A chain [x -> exp -> y -> exp -> z]. *)
Definition x0 : variable := mkVar 0 1.
Definition y0 : variable := mkVar 1 1.
Definition z0 : variable := mkVar 2 1.
Definition n1 : Apply := mkApply 1 "exp" [x0] [y0].
Definition n2 : Apply := mkApply 2 "exp" [y0] [z0].
Definition g0 : FunctionGraph := make_fgraph [x0] [z0] [n1; n2].

(** Replacing [x] by [z] would make [n1] read its own descendant; replacing
    [y] by [x] is a legal rewrite. *)
Definition reqs0 : list (variable * variable) := [(x0, z0); (y0, x0)].

(** test_dot_not_output: the jacobian of [dot(v, m)] (v of length 4, m of
    shape 4x5) as a Scan over the 5 output positions, each step the product
    of a one-hot row with the non-sequence [m] transposed. *)
Definition jac : scan_op :=
  mkScan 1 0 1 1 (mkInner 2 [EDot (EOneHot 5 (EIn 0)) (EIn 1)]).

(** test_dot_nitsot_output: outputs [dot(vect ** 2, mat)] and [vect ** 2]. *)
Definition nit : scan_op :=
  mkScan 1 0 2 1 (mkInner 2 [EDot (ESqr (EIn 0)) (EIn 1); ESqr (EIn 0)]).

(** test_dot_sitsot_output: [output1 = prev + seq1] is a recurrent state and
    [output2 = dot(output1, nonseq1)] reads it. *)
Definition sit : scan_op :=
  mkScan 1 1 1 1 (mkInner 3 [EAdd (EIn 1) (EIn 0); EDot (EAdd (EIn 1) (EIn 0)) (EIn 2)]).

(** A Scan with a sequence [x_t], a per-step bias [b_t ** 2] computed inside
    the loop, and the loop-invariant weight matrix [w]: the output at each
    step is [dot(x_t + b_t ** 2, w)]. *)
Definition bias_scan : scan_op :=
  mkScan 2 0 1 1 (mkInner 3 [EDot (EAdd (EIn 0) (ESqr (EIn 1))) (EIn 2)]).

(** Three steps of 4-dimensional vectors, and a 4x5 matrix. *)
Definition bias_xs : list value :=
  [VVec [1; 2; 3; 4]%Q; VVec [0; (-1); (1#2); 2]%Q; VVec [3; 0; (-2); (1#3)]%Q].
Definition bias_bs : list value :=
  [VVec [(1#10); 0; 1; (-1)]%Q; VVec [2; (1#2); 0; 1]%Q; VVec [0; 1; (-1#4); 3]%Q].
Definition bias_w : value :=
  VMat [[1; 0; 2; (-1); (1#2)]; [0; 3; 1; 1; 0]; [(-2); 1; 0; (1#4); 1];
        [1; 1; 1; 0; (-3)]]%Q.


(** A Scan whose inner graph has three inputs while its roles declare two. *)
Definition bad_ig : inner_graph := mkInner 3 [EDot (EIn 0) (EIn 1)].

End Scenarios.

(** ** setup.py: the package metadata *)
Module Setup.
Local Open Scope Z_scope.

Definition newline : Ascii.ascii := Ascii.ascii_of_nat 10.

(** Python's [str.split(sep)] for a one-character separator: the pieces
    between separators, empty pieces included ([""] for the empty string). *)
Fixpoint str_split (sep : Ascii.ascii) (s : string) : list string :=
  match s with
  | EmptyString => [EmptyString]
  | String c s' =>
      if Ascii.ascii_dec c sep then EmptyString :: str_split sep s'
      else match str_split sep s' with
           | [] => [String c EmptyString]
           | p :: ps => String c p :: ps
           end
  end.

(** [CLASSIFIERS = [_f for _f in CLASSIFIERS.split("\n") if _f]]: the lines
    of the classifier text, empty ones dropped (an empty string is falsy). *)
Definition classifiers (s : string) : list string :=
  List.filter (fun f => negb (String.eqb f EmptyString)) (str_split newline s).

(** The character [c] occurs in [s]. *)
Fixpoint str_mem (c : Ascii.ascii) (s : string) : bool :=
  match s with
  | EmptyString => false
  | String d s' => if Ascii.ascii_dec d c then true else str_mem c s'
  end.

(** The text of a triple-quoted block: each line followed by a newline. *)
Fixpoint unlines (ls : list string) : string :=
  match ls with
  | [] => EmptyString
  | l :: ls' => l +:+ String newline (unlines ls')
  end.

Definition base_requires : list string :=
  ["numpy>=1.17.0"; "scipy>=0.14"; "filelock"; "etuples"; "logical-unification";
   "miniKanren"; "cons"].

(** Python's [<] on tuples of integers: lexicographic, a proper prefix is
    smaller. *)
Fixpoint tuple_lt (a b : list Z) : bool :=
  match a, b with
  | [], [] => false
  | [], _ :: _ => true
  | _ :: _, [] => false
  | x :: a', y :: b' => if x <? y then true else if x =? y then tuple_lt a' b' else false
  end.

(** [install_requires], given the integer fields of [sys.version_info]:
    [dataclasses] is added when [sys.version_info[0:2] < (3, 7)]. *)
Definition install_requires (version_info : list Z) : list string :=
  if tuple_lt (take 2 version_info) [3; 7] then base_requires ++ ["dataclasses"]
  else base_requires.

End Setup.

(** ** The Tikhonov damping of [GaussNewtonMatrix.__call__] *)
Module GaussNewton.

Section Damping.
Context {T : Type} (add mul : T -> T -> T).

(** [[JHJvi + damp * vi for JHJvi, vi in zip(JHJv, v)]], over the values of
    the tensors, with their [+] and [*]. *)
Definition damped (JHJv v : list T) (damp : T) : list T :=
  (fun p => add p.1 (mul damp p.2)) <$> zip JHJv v.

End Damping.

End GaussNewton.

(** ** Facts about the function graph *)
Module FGFacts.
Import FG.

(** *** Soundness of the cycle check *)

Lemma ready_no_edge (ns : list Apply) n b :
  ready ns n = true -> ~ dep_in ns n b.
Proof.
  intros Hr (_ & Hb & v & Hv & Hvb).
  unfold ready in Hr. rewrite forallb_forall in Hr.
  specialize (Hr v Hv). apply negb_true_iff in Hr.
  assert (produced_by ns v = true) as Hp; [|congruence].
  apply existsb_exists. exists b. split; [done|].
  apply bool_decide_eq_true. by apply list_elem_of_In.
Qed.

Lemma path_empty a b : ~ clos_trans Apply (dep_in []) a b.
Proof.
  intros H. apply clos_trans_t1n in H. destruct H as [? (Ha & _)|? ? (Ha & _) _];
    inversion Ha.
Qed.

Lemma path_from_sink (ns : list Apply) n y :
  (forall b, ~ dep_in ns n b) -> ~ clos_trans Apply (dep_in ns) n y.
Proof.
  intros Hn H. apply clos_trans_t1n in H.
  destruct H as [? H|? ? H _]; eapply Hn; eauto.
Qed.

(** A path that neither starts nor ends at a sink avoids it. *)
Lemma path_remove_sink (ns : list Apply) n x y :
  (forall b, ~ dep_in ns n b) ->
  clos_trans Apply (dep_in ns) x y -> x <> n -> y <> n ->
  clos_trans Apply (dep_in (remove Apply_eq_dec n ns)) x y.
Proof.
  intros Hn H. apply clos_trans_t1n in H.
  induction H as [x y Hxy|x z y Hxz Hzy IH]; intros Hx Hy.
  - apply t_step. destruct Hxy as (Hxi & Hyi & Hv).
    repeat split; auto using in_in_remove.
  - destruct (decide (z = n)) as [->|Hz].
    + exfalso. apply (path_from_sink ns n y Hn). by apply clos_t1n_trans.
    + apply t_trans with z; [|by apply IH].
      apply t_step. destruct Hxz as (Hxi & Hzi & Hv).
      repeat split; auto using in_in_remove.
Qed.

Lemma kahn_sound f (ns : list Apply) :
  kahn f ns = true -> forall a, ~ clos_trans Apply (dep_in ns) a a.
Proof.
  revert ns. induction f as [|f IH]; intros ns H a Hc.
  - destruct ns; [by eapply path_empty|discriminate].
  - destruct ns as [|m ms]; [by eapply path_empty|].
    cbn [kahn] in H. destruct (List.find (ready (m :: ms)) (m :: ms)) as [n|] eqn:Hf; [|discriminate].
    apply List.find_some in Hf as [Hin Hr].
    assert (forall b, ~ dep_in (m :: ms) n b) as Hn by (intros b; by apply ready_no_edge).
    destruct (decide (a = n)) as [->|Ha].
    + by apply (path_from_sink _ n n Hn).
    + apply (IH _ H a). by apply path_remove_sink.
Qed.

Lemma acyclicb_sound g : acyclicb g = true -> acyclic g.
Proof. intros H a. by apply (kahn_sound _ _ H). Qed.

(** *** Editing one edge *)

Lemma node_by_id_set (ns : list Apply) a i v b :
  node_by_id (set_input_first ns a i v) b =
  if decide (a = b) then (fun n => set_input n i v) <$> node_by_id ns b
  else node_by_id ns b.
Proof.
  induction ns as [|m ns IH]; simpl; [by case_decide|].
  destruct (Nat.eq_dec (ap_id m) a) as [<-|Hma]; simpl.
  - destruct (Nat.eq_dec (ap_id m) b); case_decide; simpl; congruence.
  - rewrite IH. destruct (Nat.eq_dec (ap_id m) b); case_decide; simpl; congruence.
Qed.

Lemma set_input_first_undo (ns : list Apply) a i r v n :
  node_by_id ns a = Some n -> ap_inputs n !! i = Some r ->
  set_input_first (set_input_first ns a i v) a i r = ns.
Proof.
  induction ns as [|m ns IH]; simpl; [discriminate|].
  destruct (Nat.eq_dec (ap_id m) a) as [<-|Hma]; intros Hn Hi; simpl.
  - injection Hn as <-. destruct (Nat.eq_dec (ap_id m) (ap_id m)); [|done].
    destruct m as [id o ins outs]; unfold set_input; simpl in *.
    by rewrite list_insert_insert_eq, list_insert_id.
  - destruct (Nat.eq_dec (ap_id m) a); [done|]. by rewrite IH.
Qed.

Lemma pos_set_eq g c v r :
  pos_var g c = Some r -> pos_var (set_pos g c v) c = Some v.
Proof.
  destruct c as [[a|] i]; simpl; intros H.
  - rewrite node_by_id_set, decide_True by done.
    destruct (node_by_id (fg_apply_nodes g) a) as [n|]; simpl in *; [|discriminate].
    apply list_lookup_insert_eq. by eapply lookup_lt_Some.
  - apply list_lookup_insert_eq. by eapply lookup_lt_Some.
Qed.

Lemma pos_set_ne g c c' v :
  c' <> c -> pos_var (set_pos g c v) c' = pos_var g c'.
Proof.
  destruct c as [[a|] i], c' as [[b|] j]; simpl; intros Hne; try done.
  - rewrite node_by_id_set. case_decide as Hab; [subst b|done].
    destruct (node_by_id (fg_apply_nodes g) a); simpl; [|done].
    apply list_lookup_insert_ne. congruence.
  - apply list_lookup_insert_ne. congruence.
Qed.

Lemma set_pos_undo g c v r :
  pos_var g c = Some r -> set_pos (set_pos g c v) c r = g.
Proof.
  destruct g as [ins outs ns m], c as [[a|] i]; simpl; intros H.
  - destruct (node_by_id ns a) as [n|] eqn:Hn; simpl in H; [|discriminate].
    by erewrite set_input_first_undo.
  - by rewrite list_insert_insert_eq, list_insert_id.
Qed.

Lemma set_pos_clients g c v : fg_clients (set_pos g c v) = fg_clients g.
Proof. by destruct c as [[a|] i]. Qed.

Lemma set_pos_with_clients g m c v :
  set_pos (with_clients g m) c v = with_clients (set_pos g c v) m.
Proof. by destruct c as [[a|] i]. Qed.

Lemma pos_var_with_clients g m c : pos_var (with_clients g m) c = pos_var g c.
Proof. by destruct c as [[a|] i]. Qed.

Lemma with_clients_id g : with_clients g (fg_clients g) = g.
Proof. by destruct g. Qed.

Lemma with_clients_twice g m1 m2 : with_clients (with_clients g m1) m2 = with_clients g m2.
Proof. done. Qed.

Lemma outputs_with_clients g m : fg_outputs (with_clients g m) = fg_outputs g.
Proof. done. Qed.

(** *** The client index *)

Definition normalized (m : gmap variable (gset client)) : Prop :=
  forall v X, m !! v = Some X -> X ≠ ∅.

Lemma get_clients_del m v c w :
  get_clients (cl_del v c m) w =
  if decide (w = v) then get_clients m v ∖ {[c]} else get_clients m w.
Proof.
  unfold cl_del, get_clients at 1. case_decide as HX; case_decide as Hw.
  - subst w. rewrite lookup_delete_eq. simpl. by rewrite <- HX.
  - rewrite lookup_delete_ne by congruence. done.
  - subst w. by rewrite lookup_insert_eq.
  - rewrite lookup_insert_ne by congruence. done.
Qed.

Lemma get_clients_add m v c w :
  get_clients (cl_add v c m) w =
  if decide (w = v) then {[c]} ∪ get_clients m v else get_clients m w.
Proof.
  unfold cl_add, get_clients at 1. case_decide as Hw.
  - subst w. by rewrite lookup_insert_eq.
  - rewrite lookup_insert_ne by congruence. done.
Qed.

Lemma cl_del_normalized m v c : normalized m -> normalized (cl_del v c m).
Proof.
  unfold cl_del. intros Hm w X. case_decide as HX.
  - rewrite lookup_delete. case_decide; [discriminate|]. apply Hm.
  - rewrite lookup_insert. case_decide; [congruence|]. apply Hm.
Qed.

Lemma cl_add_normalized m v c : normalized m -> normalized (cl_add v c m).
Proof.
  unfold cl_add. intros Hm w X. rewrite lookup_insert. case_decide.
  - intros [= <-]. set_solver.
  - apply Hm.
Qed.

Lemma normalized_eq m1 m2 :
  normalized m1 -> normalized m2 ->
  (forall w, get_clients m1 w = get_clients m2 w) -> m1 = m2.
Proof.
  intros H1 H2 H. apply map_eq. intros w. specialize (H w).
  unfold get_clients in H.
  destruct (m1 !! w) as [X1|] eqn:E1, (m2 !! w) as [X2|] eqn:E2; simpl in H.
  - by subst.
  - subst. by destruct (H1 w ∅ E1).
  - subst. by destruct (H2 w ∅ E2).
  - done.
Qed.

Lemma cl_undo m r nw c :
  normalized m -> r <> nw -> c ∈ get_clients m r -> c ∉ get_clients m nw ->
  cl_add r c (cl_del nw c (cl_add nw c (cl_del r c m))) = m.
Proof.
  intros Hm Hne Hr Hnw. apply normalized_eq; [|done|].
  { by repeat first [apply cl_add_normalized | apply cl_del_normalized]. }
  intros w. rewrite !get_clients_add, !get_clients_del, !get_clients_add, !get_clients_del.
  repeat case_decide; subst; try congruence.
  - apply set_eq. intros x. rewrite elem_of_union, elem_of_difference, elem_of_singleton.
    destruct (decide (x = c)); naive_solver.
  - apply set_eq. intros x. rewrite elem_of_difference, elem_of_union, elem_of_singleton.
    destruct (decide (x = c)); naive_solver.
Qed.

(** *** Moving an edge keeps the index consistent and can be undone *)

Lemma clients_of_move g c r nw v :
  clients_of (move c r nw g) v = get_clients (cl_add nw c (cl_del r c (fg_clients g))) v.
Proof. unfold clients_of, move. by rewrite set_pos_clients. Qed.

Lemma pos_var_move g c r nw c' :
  pos_var (move c r nw g) c' = pos_var (set_pos g c nw) c'.
Proof. unfold move. by rewrite set_pos_with_clients, pos_var_with_clients. Qed.

Lemma move_consistent g c r nw :
  consistent g -> pos_var g c = Some r -> r <> nw -> consistent (move c r nw g).
Proof.
  intros [H1 H2] Hc Hne. split.
  - intros v c'. rewrite clients_of_move, pos_var_move.
    rewrite get_clients_add, !get_clients_del.
    unfold clients_of in H1.
    destruct (decide (c' = c)) as [->|Hc'].
    + rewrite (pos_set_eq _ _ _ _ Hc).
      repeat case_decide; rewrite ?elem_of_union, ?elem_of_difference, ?elem_of_singleton;
        rewrite ?H1; naive_solver.
    + rewrite (pos_set_ne _ _ _ _ Hc').
      repeat case_decide; rewrite ?elem_of_union, ?elem_of_difference, ?elem_of_singleton;
        rewrite ?H1; naive_solver.
  - unfold move. rewrite set_pos_clients. simpl.
    by apply cl_add_normalized, cl_del_normalized.
Qed.

Lemma move_undo g c r nw :
  consistent g -> pos_var g c = Some r -> r <> nw -> move c nw r (move c r nw g) = g.
Proof.
  intros [H1 H2] Hc Hne.
  assert (c ∈ clients_of g r) as Hr by (by apply H1).
  assert (c ∉ clients_of g nw) as Hnw by (rewrite H1; congruence).
  assert (fg_clients (move c r nw g) = cl_add nw c (cl_del r c (fg_clients g))) as Hm
    by (unfold move; by rewrite set_pos_clients).
  unfold move at 1. rewrite Hm, cl_undo by done.
  unfold move. rewrite !set_pos_with_clients, !with_clients_twice.
  by rewrite (set_pos_undo _ _ _ _ Hc), with_clients_id.
Qed.

(** *** Replacement with rollback *)

Lemma revert_cons (ev : event) log g :
  revert (ev :: log) g = revert log (let '(c, r, nw) := ev in move c nw r g).
Proof. by destruct ev as [[c r] nw]. Qed.

Lemma move_signature g c r nw :
  pos_var g c = Some r -> vty r = vty nw ->
  vty <$> fg_outputs (move c r nw g) = vty <$> fg_outputs g.
Proof.
  unfold move. rewrite set_pos_with_clients, outputs_with_clients.
  destruct c as [[a|] i]; simpl; intros Hc Hty; [done|].
  rewrite list_fmap_insert, <- Hty. apply list_insert_id.
  by rewrite list_lookup_fmap, Hc.
Qed.

Lemma apply_changes_inv cs nw : forall g log,
  consistent g ->
  (forall g' log', apply_changes cs nw g log = inl (g', log') ->
     consistent g' /\ revert log' g' = revert log g /\
     vty <$> fg_outputs g' = vty <$> fg_outputs g) /\
  (forall e g' log', apply_changes cs nw g log = inr (e, g', log') ->
     consistent g' /\ revert log' g' = revert log g).
Proof.
  induction cs as [|c cs IH]; intros g log Hg; simpl.
  - split; [intros g' log' [= <- <-]|intros ? ? ? [=]]; done.
  - unfold change_input. destruct (pos_var g c) as [r|] eqn:Hc; [|by apply IH].
    destruct (decide (r = nw)) as [_|Hne]; [by apply IH|].
    destruct (decide (vty r = vty nw)) as [Hty|_];
      [|split; [intros ? ? [=]|intros ? ? ? [= _ <- <-]]; done].
    assert (consistent (move c r nw g)) as Hg1 by (by apply move_consistent).
    assert (revert ((c, r, nw) :: log) (move c r nw g) = revert log g) as Hrev.
    { rewrite revert_cons. f_equal. by apply move_undo. }
    destruct (IH (move c r nw g) ((c, r, nw) :: log) Hg1) as [IH1 IH2]. split.
    + intros g' log' H. destruct (IH1 g' log' H) as (? & -> & ->).
      split; [done|]. split; [done|]. by apply move_signature.
    + intros e g' log' H. destruct (IH2 e g' log' H) as (? & ->). done.
Qed.

Lemma replace_inv g old nw :
  consistent g ->
  consistent (replace g old nw).2 /\
  ((replace g old nw).1 <> Done -> (replace g old nw).2 = g) /\
  ((replace g old nw).1 = Done -> acyclic (replace g old nw).2) /\
  vty <$> fg_outputs (replace g old nw).2 = vty <$> fg_outputs g.
Proof.
  intros Hg. unfold replace.
  destruct (decide (vty old = vty nw)) as [_|_]; [|simpl; naive_solver].
  destruct (apply_changes_inv (elements (clients_of g old)) nw g [] Hg) as [H1 H2].
  destruct (apply_changes _ _ _ _) as [[g1 log]|[[e g1] log]] eqn:Ha.
  - destruct (H1 g1 log eq_refl) as (Hg1 & Hrev & Hsig).
    destruct (acyclicb g1) eqn:Hac; simpl.
    + split; [done|]. split; [done|]. split; [intros _; by apply acyclicb_sound|done].
    + rewrite Hrev. simpl. naive_solver.
  - destruct (H2 e g1 log eq_refl) as (Hg1 & Hrev). simpl.
    rewrite Hrev. simpl. naive_solver.
Qed.

(** *** The client index built by [make_fgraph] *)

Lemma index_of_get (es : list (variable * client)) v c :
  c ∈ get_clients (index_of es) v <-> (v, c) ∈ es.
Proof.
  induction es as [|[w d] es IH]; simpl.
  - unfold get_clients. rewrite lookup_empty. simpl. split; [set_solver|].
    intros H. inversion H.
  - rewrite get_clients_add, elem_of_cons. case_decide as Hv; [subst w|].
    + rewrite elem_of_union, elem_of_singleton, IH. naive_solver.
    + rewrite IH. naive_solver.
Qed.

Lemma index_of_normalized (es : list (variable * client)) : normalized (index_of es).
Proof.
  induction es as [|e es IH]; simpl.
  - intros v X. by rewrite lookup_empty.
  - by apply cl_add_normalized.
Qed.

Lemma node_by_id_in (ns : list Apply) a n :
  node_by_id ns a = Some n -> n ∈ ns /\ ap_id n = a.
Proof.
  induction ns as [|m ns IH]; simpl; [done|].
  destruct (Nat.eq_dec (ap_id m) a) as [<-|Hma].
  - intros [= <-]. split; [left|done].
  - intros H. destruct (IH H). split; [by right|done].
Qed.

Lemma node_by_id_Some (ns : list Apply) a n :
  NoDup (ap_id <$> ns) -> n ∈ ns -> ap_id n = a -> node_by_id ns a = Some n.
Proof.
  induction ns as [|m ns IH]; simpl; intros Hnd Hn Hid.
  - inversion Hn.
  - inversion Hnd as [|? ? Hm Hnd']; subst.
    apply elem_of_cons in Hn as [->|Hn].
    + by destruct (Nat.eq_dec (ap_id m) (ap_id m)).
    + destruct (Nat.eq_dec (ap_id m) (ap_id n)) as [Heq|]; [|by apply IH].
      exfalso. apply Hm. rewrite Heq. by apply list_elem_of_fmap_2.
Qed.

Lemma edges_spec ins outs (ns : list Apply) v c :
  NoDup (ap_id <$> ns) ->
  (v, c) ∈ edges outs ns <-> pos_var (make_fgraph ins outs ns) c = Some v.
Proof.
  intros Hnd. unfold edges, make_fgraph, pos_var; simpl.
  rewrite elem_of_app, elem_of_lookup_imap, list_elem_of_bind.
  setoid_rewrite elem_of_lookup_imap.
  destruct c as [[a|] i]; split.
  - intros [(j & y & [=] & _)|(n & (k & y & [= -> -> ->] & Hk) & Hn)].
    by rewrite (node_by_id_Some ns (ap_id n) n Hnd Hn eq_refl).
  - destruct (node_by_id ns a) as [n|] eqn:Hn; simpl; [|discriminate].
    intros Hi. apply node_by_id_in in Hn as [Hn <-].
    right. exists n. split; [|done]. by exists i, v.
  - intros [(j & y & [= -> ->] & Hj)|(n & (k & y & [=] & _) & _)]. done.
  - intros Hi. left. by exists i, v.
Qed.

Lemma make_fgraph_consistent ins outs (ns : list Apply) :
  NoDup (ap_id <$> ns) -> consistent (make_fgraph ins outs ns).
Proof.
  intros Hnd. split.
  - intros v c. unfold clients_of. simpl. rewrite index_of_get. by apply edges_spec.
  - apply index_of_normalized.
Qed.

(** A pass of replacements keeps the index consistent, the output signature,
    and the DAG property; failed requests leave the graph as it was. *)
Lemma replace_all_inv reqs : forall g,
  consistent g ->
  consistent (replace_all reqs g).2 /\
  (acyclic g -> acyclic (replace_all reqs g).2) /\
  vty <$> fg_outputs (replace_all reqs g).2 = vty <$> fg_outputs g.
Proof.
  induction reqs as [|[old nw] reqs IH]; intros g Hg; simpl; [done|].
  destruct (replace_inv g old nw Hg) as (Hc & Hf & Hd & Hs).
  destruct (replace g old nw) as [o g1] eqn:Hr. simpl in *.
  destruct (IH g1 Hc) as (Hc' & Hd' & Hs').
  destruct (replace_all reqs g1) as [os g2]. simpl in *.
  split; [done|]. split; [|by rewrite Hs', Hs].
  intros Hac. apply Hd'. destruct o as [|e]; [by apply Hd|].
  by rewrite Hf.
Qed.

(** A failed replace returns the graph it was given. *)
Lemma replace_failed g old nw e g' :
  consistent g -> replace g old nw = (Raised e, g') -> g' = g.
Proof.
  intros Hg Hr. destruct (replace_inv g old nw Hg) as (_ & Hf & _).
  rewrite Hr in Hf. by apply Hf.
Qed.

(** *** The nodes after a replacement *)

Lemma set_input_first_shape (ns : list Apply) a i v :
  ap_shape <$> set_input_first ns a i v = ap_shape <$> ns.
Proof.
  induction ns as [|n ns IH]; [done|]. cbn [set_input_first].
  destruct (Nat.eq_dec (ap_id n) a); rewrite !fmap_cons; [done|by rewrite IH].
Qed.

Lemma move_shape g c r nw :
  ap_shape <$> fg_apply_nodes (move c r nw g) = ap_shape <$> fg_apply_nodes g.
Proof.
  unfold move, set_pos. destruct c as [[a|] i]; simpl; [apply set_input_first_shape|done].
Qed.

Lemma ids_shape (ns : list Apply) : ap_id <$> ns = (fun s => s.1.1) <$> (ap_shape <$> ns).
Proof. induction ns as [|n ns IH]; [done|]. rewrite !fmap_cons. by rewrite IH. Qed.

Lemma redirect_shape (ns : list Apply) old nw :
  ap_shape <$> redirect_nodes ns old nw = ap_shape <$> ns.
Proof. unfold redirect_nodes. induction ns as [|n ns IH]; [done|]. rewrite !fmap_cons. by rewrite IH. Qed.

Lemma node_by_id_None (ns : list Apply) a : a ∉ ap_id <$> ns -> node_by_id ns a = None.
Proof.
  induction ns as [|n ns IH]; simpl; [done|]. intros Ha.
  destruct (Nat.eq_dec (ap_id n) a) as [<-|_]; [by destruct Ha; left|].
  apply IH. intros H. apply Ha. by right.
Qed.

(** Two node lists with the same shapes and unique ids are equal when every
    input edge reads the same variable in both. *)
Lemma nodes_ext (ns1 ns2 : list Apply) :
  ap_shape <$> ns1 = ap_shape <$> ns2 -> NoDup (ap_id <$> ns1) ->
  (forall a i, (node_by_id ns1 a ≫= fun n => ap_inputs n !! i) =
               (node_by_id ns2 a ≫= fun n => ap_inputs n !! i)) ->
  ns1 = ns2.
Proof.
  revert ns2. induction ns1 as [|n1 ns1 IH]; intros [|n2 ns2] Hs Hnd Hin; try discriminate; [done|].
  destruct n1 as [a1 o1 in1 out1], n2 as [a2 o2 in2 out2].
  rewrite !fmap_cons in Hs. injection Hs as <- <- <- Hs.
  simpl in Hnd. apply NoDup_cons in Hnd as [Hn Hnd].
  f_equal.
  - f_equal. apply list_eq. intros i. specialize (Hin a1 i). simpl in Hin.
    destruct (Nat.eq_dec a1 a1); [exact Hin|done].
  - apply IH; [done|done|]. intros a i. specialize (Hin a i). simpl in Hin.
    destruct (Nat.eq_dec a1 a) as [<-|_]; [|exact Hin].
    rewrite (node_by_id_None ns1 a1 Hn), (node_by_id_None ns2 a1); [done|].
    rewrite ids_shape, <- Hs, <- ids_shape. exact Hn.
Qed.

Lemma redirect_lookup (ns : list Apply) old nw a i :
  (node_by_id (redirect_nodes ns old nw) a ≫= fun n => ap_inputs n !! i) =
  subst_var old nw <$> (node_by_id ns a ≫= fun n => ap_inputs n !! i).
Proof.
  unfold redirect_nodes. induction ns as [|n ns IH]; simpl; [done|].
  destruct (Nat.eq_dec (ap_id n) a); simpl; [|done]. by rewrite list_lookup_fmap.
Qed.

(** Moving a list of distinct clients of [old] to [nw]: no error, the
    shapes of the nodes are kept, and exactly those edges read [nw]. *)
Lemma apply_changes_redirect old nw cs : forall g log,
  consistent g -> vty old = vty nw -> NoDup cs ->
  (forall c, c ∈ cs -> pos_var g c = Some old) ->
  exists g1 log1, apply_changes cs nw g log = inl (g1, log1) /\
    ap_shape <$> fg_apply_nodes g1 = ap_shape <$> fg_apply_nodes g /\
    forall c, pos_var g1 c = if bool_decide (c ∈ cs) then Some nw else pos_var g c.
Proof.
  induction cs as [|c cs IH]; intros g log Hg Hty Hnd Hcs; simpl.
  - exists g, log. split; [done|]. split; [done|]. done.
  - apply NoDup_cons in Hnd as [Hc Hnd].
    assert (pos_var g c = Some old) as Hpc by (apply Hcs; left).
    assert (forall c', c' ∈ cs -> pos_var g c' = Some old) as Hcs'
      by (intros; apply Hcs; by right).
    unfold change_input. rewrite Hpc.
    destruct (decide (old = nw)) as [<-|Hne].
    + destruct (IH g log Hg Hty Hnd Hcs') as (g1 & log1 & Ha & Hs & Hp).
      exists g1, log1. split; [done|]. split; [done|]. intros c'. rewrite Hp.
      case_bool_decide as H1; case_bool_decide as H2; try done.
      * exfalso. apply H2. by right.
      * apply elem_of_cons in H2 as [->|H2]; [done|done].
    + destruct (decide (vty old = vty nw)) as [_|]; [|done].
      assert (consistent (move c old nw g)) as Hg' by (by apply move_consistent).
      destruct (IH (move c old nw g) ((c, old, nw) :: log) Hg' Hty Hnd) as (g1 & log1 & Ha & Hs & Hp).
      { intros c' Hc'. rewrite pos_var_move, pos_set_ne; [by apply Hcs'|]. intros ->. done. }
      exists g1, log1. split; [done|]. split; [by rewrite Hs, move_shape|].
      intros c'. rewrite Hp, pos_var_move.
      case_bool_decide as H1; case_bool_decide as H2; try done.
      * exfalso. apply H2. by right.
      * apply elem_of_cons in H2 as [->|H2]; [|done]. by apply pos_set_eq with old.
      * rewrite pos_set_ne; [done|]. intros ->. apply H2. by left.
Qed.

(** On a consistent graph with distinct node ids, the changes of a replace
    succeed and give the proposed nodes. *)
Lemma apply_changes_replace g old nw :
  consistent g -> NoDup (ap_id <$> fg_apply_nodes g) -> vty old = vty nw ->
  exists g1 log, apply_changes (elements (clients_of g old)) nw g [] = inl (g1, log) /\
    fg_apply_nodes g1 = redirect_nodes (fg_apply_nodes g) old nw.
Proof.
  intros Hg Hid Hty.
  destruct (apply_changes_redirect old nw (elements (clients_of g old)) g [] Hg Hty)
    as (g1 & log & Ha & Hs & Hp).
  { apply NoDup_elements. }
  { intros c Hc. apply elem_of_elements in Hc. by apply (proj1 Hg). }
  exists g1, log. split; [done|].
  apply nodes_ext.
  - by rewrite Hs, redirect_shape.
  - by rewrite ids_shape, Hs, <- ids_shape.
  - intros a i. rewrite redirect_lookup.
    specialize (Hp (Some a, i)). simpl in Hp. rewrite Hp.
    case_bool_decide as Hc.
    + apply elem_of_elements, (proj1 Hg) in Hc. simpl in Hc. rewrite Hc. simpl.
      unfold subst_var. by rewrite decide_True.
    + destruct (node_by_id (fg_apply_nodes g) a ≫= _) as [v|] eqn:Hv; [|done]. simpl.
      unfold subst_var. rewrite decide_False; [done|]. intros ->.
      apply Hc, elem_of_elements, (proj1 Hg). exact Hv.
Qed.

(** A replacement whose proposed graph has a cycle raises
    InconsistencyError and returns the graph it was given. *)
Lemma replace_cycle g old nw :
  consistent g -> NoDup (ap_id <$> fg_apply_nodes g) -> vty old = vty nw ->
  (exists a, clos_trans Apply (dep_in (redirect_nodes (fg_apply_nodes g) old nw)) a a) ->
  replace g old nw = (Raised InconsistencyError, g).
Proof.
  intros Hg Hid Hty [a Ha].
  destruct (apply_changes_replace g old nw Hg Hid Hty) as (g1 & log & Hac & Hn).
  unfold replace. rewrite decide_True by done. rewrite Hac.
  destruct (acyclicb g1) eqn:Hb.
  - exfalso. apply (acyclicb_sound g1 Hb a). by rewrite Hn.
  - destruct (apply_changes_inv (elements (clients_of g old)) nw g [] Hg) as [H1 _].
    destruct (H1 g1 log Hac) as (_ & Hrev & _). by rewrite Hrev.
Qed.

(** A successful replace gives the proposed nodes. *)
Lemma replace_done g old nw g' :
  consistent g -> NoDup (ap_id <$> fg_apply_nodes g) ->
  replace g old nw = (Done, g') -> fg_apply_nodes g' = redirect_nodes (fg_apply_nodes g) old nw.
Proof.
  intros Hg Hid. unfold replace.
  destruct (decide (vty old = vty nw)) as [Hty|]; [|done].
  destruct (apply_changes_replace g old nw Hg Hid Hty) as (g1 & log & Hac & Hn).
  rewrite Hac. destruct (acyclicb g1); [|done]. by intros [= <-].
Qed.

End FGFacts.

(** ** Facts about the rewrite engine *)
Module EngineFacts.
Import Engine.

Section Generic.
Context {G N : Type} `{EqDecision N}.
Variable toposort : G -> list N.
Implicit Types (rules : list (rule G N)) (g : G).

Lemma fire_at_some rules n g g' :
  fire_at rules n g = Some g' ->
  exists r f, In r rules /\ r_action r = Local f /\ f n g = Some g'.
Proof.
  induction rules as [|r rs IH]; simpl; [done|].
  destruct (r_action r) as [f|f] eqn:Ha.
  - destruct (f n g) eqn:Hf.
    + intros [= <-]. exists r, f. auto.
    + intros H. destruct (IH H) as (r' & f' & ? & ? & ?). exists r', f'. auto.
  - intros H. destruct (IH H) as (r' & f' & ? & ? & ?). exists r', f'. auto.
Qed.

Lemma run_globals_invariant (P : G -> Prop) rules g :
  (forall r f g1 g2, In r rules -> r_action r = Global f -> P g1 -> f g1 = Some g2 -> P g2) ->
  P g -> P (run_globals rules g).1.
Proof.
  revert g. induction rules as [|r rs IH]; intros g HG Hg; simpl; [done|].
  assert (forall r' f g1 g2, In r' rs -> r_action r' = Global f -> P g1 ->
    f g1 = Some g2 -> P g2) as HG' by (intros; eapply HG; eauto using in_cons).
  destruct (r_action r) as [f|f] eqn:Ha; [by apply IH|].
  destruct (f g) as [g'|] eqn:Hf; simpl; [|by apply IH].
  apply IH; [done|]. eapply HG; [by left|done..].
Qed.

(** An invariant of every rule is an invariant of the work list, of a pass
    and of the engine. *)
Lemma worklist_invariant (P : G -> Prop) rules fuel : forall wl g b g' b',
  (forall r f n g1 g2, In r rules -> r_action r = Local f -> P g1 -> f n g1 = Some g2 -> P g2) ->
  P g -> worklist toposort rules fuel wl g b = Some (g', b') -> P g'.
Proof.
  induction fuel as [|f IH]; intros [|n wl] g b g' b' HL Hg; simpl.
  - by intros [= <- _].
  - done.
  - by intros [= <- _].
  - case_bool_decide; [|by apply IH].
    destruct (fire_at rules n g) as [g1|] eqn:Hf; [|by apply IH].
    apply IH; [done|]. destruct (fire_at_some _ _ _ _ Hf) as (r & h & Hr & Ha & Hh).
    eapply HL; eauto.
Qed.

Lemma pass_invariant (P : G -> Prop) rules fuel g g' b :
  (forall r f n g1 g2, In r rules -> r_action r = Local f -> P g1 -> f n g1 = Some g2 -> P g2) ->
  (forall r f g1 g2, In r rules -> r_action r = Global f -> P g1 -> f g1 = Some g2 -> P g2) ->
  P g -> pass toposort rules fuel g = Some (g', b) -> P g'.
Proof.
  intros HL HG Hg. unfold pass.
  destruct (worklist _ _ _ _ _ _) as [[g1 b1]|] eqn:Hw; [|done].
  pose proof (run_globals_invariant P rules g1 HG) as H.
  destruct (run_globals rules g1) as [g2 b2]. intros [= <- _].
  apply H. eapply worklist_invariant; eauto.
Qed.

Lemma run_invariant (P : G -> Prop) rules fuel cap : forall g g' b,
  (forall r f n g1 g2, In r rules -> r_action r = Local f -> P g1 -> f n g1 = Some g2 -> P g2) ->
  (forall r f g1 g2, In r rules -> r_action r = Global f -> P g1 -> f g1 = Some g2 -> P g2) ->
  P g -> run toposort rules fuel cap g = Some (g', b) -> P g'.
Proof.
  induction cap as [|c IH]; intros g g' b HL HG Hg; simpl; [by intros [= <- _]|].
  destruct (pass toposort rules fuel g) as [[g1 [|]]|] eqn:Hp; [|intros [= <- _]|done].
  - apply IH; [done..|]. eapply pass_invariant; eauto.
  - eapply pass_invariant; eauto.
Qed.

Lemma select_in p (db : list (rule G N)) r :
  In r (select p db) -> In r db /\ selected p r = true.
Proof. unfold select. apply filter_In. Qed.

(** The executable engine, serving the work list first in first out, is a
    run of the engine relation. *)
Lemma worklist_sound rules fuel : forall wl g b g' b',
  worklist toposort rules fuel wl g b = Some (g', b') ->
  worklist_rel toposort rules wl g b g' b'.
Proof.
  induction fuel as [|f IH]; intros [|n wl] g b g' b'; simpl.
  - intros [= <- <-]. constructor.
  - done.
  - intros [= <- <-]. constructor.
  - case_bool_decide as Hn.
    + destruct (fire_at rules n g) as [g1|] eqn:Hf; intros H.
      * apply (wr_fire toposort rules [] n wl g g1); [done|done|]. by apply IH.
      * apply (wr_skip toposort rules [] n wl); [by right|]. by apply IH.
    + intros H. apply (wr_skip toposort rules [] n wl); [by left|]. by apply IH.
Qed.

Lemma pass_sound rules fuel g g' b :
  pass toposort rules fuel g = Some (g', b) -> pass_rel toposort rules g g' b.
Proof.
  unfold pass. destruct (worklist _ _ _ _ _ _) as [[g1 b1]|] eqn:Hw; [|done].
  destruct (run_globals rules g1) as [g2 b2] eqn:Hg. intros [= <- <-].
  econstructor; [by apply worklist_sound with fuel|done].
Qed.

Lemma run_sound rules fuel cap : forall g g' b,
  run toposort rules fuel cap g = Some (g', b) -> engine_rel toposort rules cap g g' b.
Proof.
  induction cap as [|c IH]; intros g g' b; simpl; [intros [= <- <-]; constructor|].
  destruct (pass toposort rules fuel g) as [[g1 [|]]|] eqn:Hp.
  - intros H. eapply er_next; [by apply pass_sound with fuel|by apply IH].
  - intros [= <- <-]. apply er_converged. by apply pass_sound with fuel.
  - done.
Qed.

(** A rule with an excluded tag or name is never selected. *)
Lemma excluded_not_selected p (r : rule G N) t :
  t ∈ prof_exclude p -> In t (r_name r :: r_tags r) -> selected p r = false.
Proof.
  intros Ht Hin. unfold selected. apply andb_false_iff. right.
  apply negb_false_iff, existsb_exists. exists t. split; [done|]. by apply bool_decide_eq_true.
Qed.

End Generic.

End EngineFacts.

(** ** Facts about the Scan pushout *)
Module ScanFacts.
Import Scan Engine ScanRewrite.

Lemma mapM_length {A B} (f : A -> option B) (l : list A) (k : list B) :
  mapM f l = Some k -> length k = length l.
Proof. intros H. apply mapM_Some_1 in H. symmetry. by eapply Forall2_length. Qed.

(** Evaluating the outputs with the Dot at [k] is evaluating its operand
    there and taking the product afterwards. *)
Lemma eval_outputs_push env (outs : list expr) k e i w :
  env !! i = Some w -> outs !! k = Some (EDot e (EIn i)) ->
  mapM (eval_expr env) outs = mapM (eval_expr env) (<[k:=e]> outs) ≫= fix_out k w.
Proof.
  intros Hw. revert k. induction outs as [|o os IH]; intros k Hk; [done|].
  destruct k as [|k]; simpl in Hk |- *.
  - injection Hk as ->. simpl. rewrite Hw. unfold fix_out.
    destruct (eval_expr env e) as [x|]; simpl; [|done].
    destruct (mapM (eval_expr env) os) as [vs|]; simpl;
      destruct (dot_val x w); simpl; done.
  - rewrite (IH k Hk). unfold fix_out.
    destruct (eval_expr env o); simpl; [|done].
    destruct (mapM (eval_expr env) (<[k:=e]> os)) as [vs|]; simpl; [|done].
    destruct (vs !! k); simpl; [|done].
    destruct (dot_val _ w); simpl; done.
Qed.

Lemma scan_step_length sc seqs nonseqs t states outs :
  scan_step sc seqs nonseqs t states = Some outs ->
  length outs = length (ig_outputs (body sc)).
Proof.
  unfold scan_step. destruct (mapM _ seqs); simpl; [|done]. apply mapM_length.
Qed.

Lemma scan_loop_rows sc seqs nonseqs n : forall t states steps,
  scan_loop sc seqs nonseqs n t states = Some steps ->
  Forall (fun outs => length outs = length (ig_outputs (body sc))) steps.
Proof.
  induction n as [|n IH]; simpl; intros t states steps.
  - intros [= <-]. constructor.
  - destruct (scan_step _ _ _ _ _) as [outs|] eqn:Hs; simpl; [|done].
    destruct (scan_loop _ _ _ _ _ _) as [rest|] eqn:Hl; simpl; [|done].
    intros [= <-]. constructor; [by eapply scan_step_length|by eapply IH].
Qed.

Section Push.
Variables (sc : scan_op) (k : nat) (e : expr) (i : nat).
Variables (seqs : list (list value)) (nonseqs : list value) (w : value).
Hypothesis Hk : n_sitsot sc <= k.
Hypothesis Hout : ig_outputs (body sc) !! k = Some (EDot e (EIn i)).
Hypothesis Hi : n_seqs sc + n_sitsot sc <= i.
Hypothesis Hw : nonseqs !! (i - n_seqs sc - n_sitsot sc) = Some w.
Hypothesis Hseqs : length seqs = n_seqs sc.
Hypothesis Hlen : n_sitsot sc <= length (ig_outputs (body sc)).

Lemma scan_step_push t states :
  length states = n_sitsot sc ->
  scan_step sc seqs nonseqs t states =
  scan_step (set_output sc k e) seqs nonseqs t states ≫= fix_out k w.
Proof.
  intros Hst. unfold scan_step.
  destruct (mapM (fun s => s !! t) seqs) as [xs|] eqn:Hxs; simpl; [|done].
  apply mapM_length in Hxs.
  apply (eval_outputs_push _ _ _ _ i); [|done].
  rewrite lookup_app_r by lia. rewrite lookup_app_r by lia.
  rewrite <- Hw. f_equal. lia.
Qed.

Lemma scan_loop_push n : forall t states,
  length states = n_sitsot sc ->
  scan_loop sc seqs nonseqs n t states =
  scan_loop (set_output sc k e) seqs nonseqs n t states ≫= mapM (fix_out k w).
Proof.
  induction n as [|n IH]; intros t states Hst; simpl; [done|].
  rewrite scan_step_push by done.
  destruct (scan_step (set_output sc k e) seqs nonseqs t states) as [outs'|] eqn:Hs;
    simpl; [|done].
  apply scan_step_length in Hs. simpl in Hs. rewrite length_insert in Hs.
  destruct (fix_out k w outs') as [outs|] eqn:Hf; simpl.
  - assert (take (n_sitsot sc) outs = take (n_sitsot sc) outs') as Ht.
    { unfold fix_out in Hf.
      destruct (outs' !! k); simpl in Hf; [|done].
      destruct (dot_val _ w); simpl in Hf; [|done].
      injection Hf as <-. by apply take_insert_ge. }
    rewrite Ht, IH by (rewrite length_take; lia).
    change (set_output sc k e) with (set_output sc k e) at 1.
    destruct (scan_loop (set_output sc k e) seqs nonseqs n (S t) _) as [rest|]; simpl;
      [|done].
    rewrite Hf. simpl. destruct (mapM (fix_out k w) rest); done.
  - destruct (scan_loop (set_output sc k e) seqs nonseqs n (S t) _); simpl;
      [rewrite Hf|]; done.
Qed.

End Push.

Lemma column_cons o outs steps :
  column o (outs :: steps) = nth o outs (VInt 0) :: column o steps.
Proof. reflexivity. Qed.

Lemma mapM_cons_option {A B} (f : A -> option B) x l :
  mapM f (x :: l) = (y ← f x; ys ← mapM f l; Some (y :: ys)).
Proof. reflexivity. Qed.

(** Fixing output [k] at every step: the Dot applied to the stacked column
    [k], the other columns unchanged. *)
Lemma column_fix k w steps' :
  Forall (fun outs => k < length outs) steps' ->
  match mapM (fix_out k w) steps' with
  | Some steps =>
      mapM (fun y => dot_val y w) (column k steps') = Some (column k steps) /\
      forall o, o <> k -> column o steps = column o steps'
  | None => mapM (fun y => dot_val y w) (column k steps') = None
  end.
Proof.
  induction 1 as [|outs steps' Hk Hs IH]; [by split|].
  rewrite mapM_cons_option.
  destruct (lookup_lt_is_Some_2 outs k Hk) as [y Hy].
  assert (fix_out k w outs = (y' ← dot_val y w; Some (<[k:=y']> outs))) as ->.
  { unfold fix_out. by rewrite Hy. }
  rewrite column_cons, (nth_lookup_Some _ _ _ _ Hy), mapM_cons_option.
  destruct (dot_val y w) as [y'|]; cbn [mbind option_bind]; [|done].
  destruct (mapM (fix_out k w) steps') as [steps|]; cbn [mbind option_bind].
  - destruct IH as [IH1 IH2]. rewrite IH1. cbn [mbind option_bind]. split.
    + rewrite column_cons. do 2 f_equal. symmetry. apply nth_lookup_Some.
      by apply list_lookup_insert_eq.
    + intros o Ho. rewrite !column_cons, IH2 by done. f_equal.
      rewrite !nth_lookup, list_lookup_insert_ne by done. done.
  - by rewrite IH.
Qed.

Lemma columns_lookup m steps o : o < m -> columns m steps !! o = Some (column o steps).
Proof. intros Ho. unfold columns. by rewrite list_lookup_fmap, lookup_seq_lt. Qed.

Lemma columns_insert m k steps steps' :
  k < m -> (forall o, o <> k -> column o steps = column o steps') ->
  <[k:=column k steps]> (columns m steps') = columns m steps.
Proof.
  intros Hk Ho. apply list_eq. intros o.
  destruct (decide (o = k)) as [->|Hne].
  - rewrite list_lookup_insert_eq by (unfold columns; rewrite length_fmap, length_seq; lia).
    by rewrite columns_lookup.
  - rewrite list_lookup_insert_ne by done. unfold columns.
    rewrite !list_lookup_fmap. destruct (seq 0 m !! o) as [o'|] eqn:Hs; [|done].
    apply lookup_seq in Hs as [-> _]. simpl. by rewrite Ho.
Qed.

(** The Scan with output [k] replaced by the Dot's operand, followed by the
    Dot on all steps of that output, computes what the original Scan does. *)
Lemma scan_eval_push sc k e i n seqs inits nonseqs w :
  n_sitsot sc <= k ->
  ig_outputs (body sc) !! k = Some (EDot e (EIn i)) ->
  n_seqs sc + n_sitsot sc <= i ->
  nonseqs !! (i - n_seqs sc - n_sitsot sc) = Some w ->
  n_sitsot sc <= length (ig_outputs (body sc)) ->
  scan_eval sc n seqs inits nonseqs =
  (res ← scan_eval (set_output sc k e) n seqs inits nonseqs;
   ys ← res !! k; ys' ← mapM (fun y => dot_val y w) ys; Some (<[k:=ys']> res)).
Proof.
  intros Hk Hout Hi Hw Hlen. unfold scan_eval. cbn [n_seqs n_sitsot n_nonseqs set_output].
  destruct (decide _) as [(Hs & Hin & Hn)|]; [|done].
  rewrite (scan_loop_push sc k e i seqs nonseqs w Hk Hout Hi Hw Hs) by done.
  destruct (scan_loop (set_output sc k e) seqs nonseqs n 0 inits) as [steps'|] eqn:Hl;
    cbn [mbind option_bind]; [|done].
  apply scan_loop_rows in Hl. cbn [set_output body ig_outputs] in Hl.
  assert (k < length (ig_outputs (body sc))) as Hkm by (apply lookup_lt_Some in Hout; lia).
  assert (Forall (fun outs => k < length outs) steps') as Hr.
  { eapply Forall_impl; [exact Hl|]. intros outs ->. by rewrite length_insert. }
  pose proof (column_fix k w steps' Hr) as Hc.
  cbn [set_output body ig_outputs]. rewrite length_insert, columns_lookup by done.
  cbn [mbind option_bind].
  destruct (mapM (fix_out k w) steps') as [steps|]; cbn [mbind option_bind].
  - destruct Hc as [Hc1 Hc2]. rewrite Hc1. cbn [mbind option_bind].
    f_equal. symmetry. by apply columns_insert.
  - by rewrite Hc.
Qed.

Lemma forallb_Forall {A} (f : A -> bool) l :
  forallb f l = true <-> Forall (fun x => f x = true) l.
Proof. rewrite forallb_forall, Forall_forall. by setoid_rewrite list_elem_of_In. Qed.

Lemma candidate_spec sc k o e j :
  candidate sc k o = Some (e, j) ->
  exists i, o = EDot e (EIn i) /\ n_sitsot sc <= k /\
    n_seqs sc + n_sitsot sc <= i < n_seqs sc + n_sitsot sc + n_nonseqs sc /\
    reads_state sc e = false /\ j = i - n_seqs sc - n_sitsot sc.
Proof.
  destruct o as [| | | | | |a b]; try done. destruct b as [i| | | | | |]; try done.
  unfold candidate. destruct (bool_decide _ && _ && _) eqn:Hc; [|done].
  intros [= <- <-]. apply andb_prop in Hc as [Hc Hs]. apply andb_prop in Hc as [Hk Hi].
  apply bool_decide_eq_true in Hk. unfold is_nonseq_input in Hi.
  apply bool_decide_eq_true in Hi. apply negb_true_iff in Hs. by exists i.
Qed.

Lemma find_candidate_spec sc outs : forall k0 k e j,
  find_candidate sc k0 outs = Some (k, e, j) ->
  k0 <= k /\ exists o, outs !! (k - k0) = Some o /\ candidate sc k o = Some (e, j).
Proof.
  induction outs as [|o outs IH]; intros k0 k e j; simpl; [done|].
  destruct (candidate sc k0 o) as [[e' j']|] eqn:Hc.
  - intros [= <- <- <-]. split; [done|]. exists o. by rewrite Nat.sub_diag.
  - intros H. destruct (IH _ _ _ _ H) as (Hk & o' & Ho & Hc').
    split; [lia|]. exists o'. by replace (k - k0) with (S (k - S k0)) by lia.
Qed.

Lemma inputs_of_dot e i : inputs_of (EDot e (EIn i)) = inputs_of e ++ [i].
Proof. reflexivity. Qed.

(** Replacing an output by a subterm keeps the contract. *)
Lemma contract_ok_set_output sc k e i :
  contract_ok sc = true -> ig_outputs (body sc) !! k = Some (EDot e (EIn i)) ->
  contract_ok (set_output sc k e) = true.
Proof.
  unfold contract_ok. cbn [set_output body ig_outputs ig_n_inputs n_seqs n_sitsot
    n_nitsot n_nonseqs]. rewrite length_insert.
  intros Hc Ho. apply andb_prop in Hc as [Hc Hf]. rewrite Hc. simpl.
  apply forallb_Forall. apply forallb_Forall in Hf.
  apply Forall_insert; [done|].
  pose proof (Forall_lookup_1 _ _ _ _ Hf Ho) as He. cbv beta in He.
  rewrite inputs_of_dot, forallb_app in He. by apply andb_prop in He as [-> _].
Qed.

Lemma scan_eval_lengths sc n seqs inits nonseqs res :
  scan_eval sc n seqs inits nonseqs = Some res -> length nonseqs = n_nonseqs sc.
Proof. unfold scan_eval. by destruct (decide _) as [(_ & _ & ?)|]. Qed.

(** One pushout keeps the contract and what the graph computes. *)
Lemma push_out_dot_sound p p' :
  contract_ok (p_scan p) = true -> push_out_dot p = Some p' ->
  contract_ok (p_scan p') = true /\
  forall n seqs inits nonseqs,
    eval_pushed p' n seqs inits nonseqs = eval_pushed p n seqs inits nonseqs.
Proof.
  intros Hc Hp. unfold push_out_dot in Hp.
  destruct (find_candidate _ 0 _) as [[[k e] j]|] eqn:Hf; [|done]. injection Hp as <-.
  apply find_candidate_spec in Hf as (_ & o & Ho & Hcand). rewrite Nat.sub_0_r in Ho.
  apply candidate_spec in Hcand as (i & -> & Hk & Hi & _ & ->).
  split; [by eapply contract_ok_set_output|].
  assert (n_sitsot (p_scan p) <= length (ig_outputs (body (p_scan p)))) as Hlen.
  { unfold contract_ok in Hc. apply andb_prop in Hc as [Hc _].
    apply andb_prop in Hc as [_ Hc]. apply bool_decide_eq_true in Hc. lia. }
  intros n seqs inits nonseqs. unfold eval_pushed. cbn [p_scan p_post apply_post].
  destruct (nonseqs !! (i - n_seqs (p_scan p) - n_sitsot (p_scan p))) as [w|] eqn:Hw.
  - rewrite (scan_eval_push (p_scan p) k e i n seqs inits nonseqs w) by (done || lia).
    destruct (scan_eval (set_output (p_scan p) k e) n seqs inits nonseqs) as [res|];
      cbn [mbind option_bind]; [|done].
    destruct (res !! k); cbn [mbind option_bind]; [|done].
    by destruct (mapM _ _).
  - destruct (scan_eval (p_scan p) n seqs inits nonseqs) as [res|] eqn:He.
    + apply scan_eval_lengths in He. apply lookup_ge_None in Hw. lia.
    + cbn [mbind option_bind].
      by destruct (scan_eval (set_output (p_scan p) k e) n seqs inits nonseqs).
Qed.

Lemma select_scan_db pr r : In r (select pr scan_db) -> r = scan_pushout_add.
Proof. intros Hr. apply EngineFacts.select_in in Hr as [[<-|[]] _]. done. Qed.

Lemma select_scan_db_eq pr :
  select pr scan_db = if selected pr scan_pushout_add then [scan_pushout_add] else [].
Proof. unfold select, scan_db. simpl. by destruct (selected pr scan_pushout_add). Qed.

(** *** The engine on a graph around one Scan node *)

Lemma fire_at_push n g : fire_at [scan_pushout_add] n g = pushout_at n g.
Proof. simpl. by destruct (pushout_at n g). Qed.

Lemma fire_at_scan pr n g :
  fire_at (select pr scan_db) n g =
  if selected pr scan_pushout_add then pushout_at n g else None.
Proof.
  rewrite select_scan_db_eq. destruct (selected pr scan_pushout_add); [|done].
  apply fire_at_push.
Qed.

Lemma run_globals_scan pr g : run_globals (select pr scan_db) g = (g, false).
Proof. rewrite select_scan_db_eq. by destruct (selected pr scan_pushout_add). Qed.

Lemma toposort_scan g : None ∈ pushed_toposort g.
Proof. unfold pushed_toposort. apply elem_of_cons. by left. Qed.

Lemma sum_list_with_insert {A} (f : A -> nat) (l : list A) k x y :
  l !! k = Some y -> sum_list_with f (<[k:=x]> l) + f y = sum_list_with f l + f x.
Proof.
  revert k. induction l as [|z l IH]; intros [|k] H; simpl in *; try done.
  - injection H as ->. lia.
  - specialize (IH k H). lia.
Qed.

(** A pushout removes one Dot product from the body and adds one after the
    loop. *)
Lemma push_out_dot_measure p p' :
  push_out_dot p = Some p' ->
  n_dots p = S (n_dots p') /\ length (p_post p') = S (length (p_post p)).
Proof.
  unfold push_out_dot.
  destruct (find_candidate _ 0 _) as [[[k e] j]|] eqn:Hf; [|done]. intros [= <-].
  apply find_candidate_spec in Hf as (_ & o & Ho & Hcand). rewrite Nat.sub_0_r in Ho.
  apply candidate_spec in Hcand as (i & -> & _).
  unfold n_dots. cbn [p_scan p_post set_output body ig_outputs]. split; [|done].
  pose proof (sum_list_with_insert expr_dots _ k e _ Ho) as H. simpl in H. lia.
Qed.

Lemma push_fix_none m p : push_out_dot p = None -> push_fix m p = p.
Proof. destruct m; simpl; [done|]. by intros ->. Qed.

Lemma push_all_step p p' : push_out_dot p = Some p' -> push_all p = push_all p'.
Proof.
  intros H. unfold push_all. destruct (push_out_dot_measure _ _ H) as [-> _].
  simpl. by rewrite H.
Qed.

Lemma push_all_none p : push_out_dot (push_all p) = None.
Proof.
  unfold push_all. remember (n_dots p) as d eqn:Hd. revert p Hd.
  induction d as [|d IH]; intros p Hd; simpl;
    destruct (push_out_dot p) as [p'|] eqn:H; try done;
    destruct (push_out_dot_measure _ _ H) as [Hm _]; [lia|].
  apply IH. lia.
Qed.

Lemma push_all_idem p : push_all (push_all p) = push_all p.
Proof. unfold push_all at 1. apply push_fix_none, push_all_none. Qed.

Lemma pushable_push_all p : pushable (push_all p) = false.
Proof. unfold pushable. by rewrite push_all_none. Qed.

Lemma push_all_measure p :
  length (p_post (push_all p)) + 2 * n_dots (push_all p) <= length (p_post p) + 2 * n_dots p.
Proof.
  assert (forall d q, length (p_post (push_fix d q)) + 2 * n_dots (push_fix d q) <=
    length (p_post q) + 2 * n_dots q) as H by
  (induction d as [|d IH]; intros q; simpl; [lia|];
   destruct (push_out_dot q) as [q'|] eqn:H; [|lia];
   destruct (push_out_dot_measure _ _ H) as [Hm Hl];
   specialize (IH q'); lia).
  apply H.
Qed.

Lemma list_difference_sub {A} `{EqDecision A} (l k : list A) :
  (forall x, x ∈ l -> x ∈ k) -> list_difference l k = [].
Proof.
  induction l as [|x l IH]; intros H; simpl; [done|].
  destruct (decide_rel elem_of x k) as [_|Hx].
  - apply IH. intros y Hy. apply H. by right.
  - exfalso. apply Hx, H. by left.
Qed.

(** The pushout creates one node, the product after the loop; the Scan node
    is enqueued again. *)
Lemma enqueued_push g g' :
  push_out_dot g = Some g' -> enqueued pushed_toposort None g g' = [Some (length (p_post g)); None].
Proof.
  intros H. destruct (push_out_dot_measure _ _ H) as [_ Hl].
  unfold enqueued. rewrite bool_decide_true by apply toposort_scan.
  change (pushed_toposort g') with
    (None :: (Some <$> reverse (seq 0 (length (p_post g'))))).
  rewrite Hl, seq_S, reverse_app. simpl.
  destruct (decide_rel elem_of (Some (length (p_post g))) (pushed_toposort g)) as [Hs|_].
  - exfalso. unfold pushed_toposort in Hs.
    apply elem_of_cons in Hs as [Hs|Hs]; [discriminate|].
    apply list_elem_of_fmap_inj, elem_of_reverse, elem_of_seq in Hs; [lia|].
    intros ? ? E; by injection E.
  - rewrite list_difference_sub; [done|]. intros x Hx. unfold pushed_toposort.
    apply elem_of_cons. by right.
Qed.

(** With enough fuel the work list runs empty. *)
Lemma worklist_scan_total pr fuel : forall wl g b,
  length wl + 2 * n_dots g <= fuel ->
  is_Some (worklist pushed_toposort (select pr scan_db) fuel wl g b).
Proof.
  induction fuel as [|f IH]; intros [|n wl] g b Hf; cbn [worklist]; try by eexists.
  - simpl in Hf. lia.
  - simpl in Hf. case_bool_decide; [|apply IH; lia].
    rewrite fire_at_scan. destruct (selected pr scan_pushout_add); [|apply IH; lia].
    destruct n as [m|]; cbn [pushout_at]; [apply IH; lia|].
    destruct (push_out_dot g) as [g'|] eqn:Hp; [|apply IH; lia].
    apply IH. rewrite length_app, (enqueued_push _ _ Hp).
    destruct (push_out_dot_measure _ _ Hp) as [Hd _]. simpl. lia.
Qed.

Lemma pass_scan_total pr fuel g :
  scan_fuel g <= fuel -> is_Some (pass pushed_toposort (select pr scan_db) fuel g).
Proof.
  intros Hf. unfold pass.
  destruct (worklist_scan_total pr fuel (pushed_toposort g) g false) as [[g1 b1] Hw].
  { unfold scan_fuel in Hf. unfold pushed_toposort. simpl.
    rewrite length_fmap, length_reverse, length_seq. lia. }
  rewrite Hw. destruct (run_globals _ g1). by eexists.
Qed.

(** Whatever the order the work list is served in, a pass of the pushout
    repeats it at the Scan node until it no longer applies. *)
Lemma worklist_rel_push wl g b g' b' :
  worklist_rel pushed_toposort [scan_pushout_add] wl g b g' b' ->
  (None ∈ wl \/ push_out_dot g = None) ->
  g' = push_all g /\ b' = b || pushable g.
Proof.
  induction 1 as [g b|l1 n l2 g b g' b' Hs H IH|l1 n l2 g g1 b g' b' Hn Hf H IH]; intros Hw.
  - destruct Hw as [Hw|Hw]; [inversion Hw|].
    split; [unfold push_all; by rewrite push_fix_none|].
    unfold pushable. rewrite Hw. by rewrite orb_false_r.
  - apply IH. rewrite fire_at_push in Hs. destruct n as [m|].
    + destruct Hw as [Hw|Hw]; [left|by right].
      rewrite elem_of_app, elem_of_cons in Hw. rewrite elem_of_app.
      destruct Hw as [Hw|[Hw|Hw]]; [by left|discriminate|by right].
    + right. destruct Hs as [Hs|Hs]; [|exact Hs]. destruct Hs. apply toposort_scan.
  - rewrite fire_at_push in Hf. destruct n as [m|]; [discriminate|]. cbn [pushout_at] in Hf.
    destruct IH as [-> ->].
    { left. rewrite (enqueued_push _ _ Hf), !elem_of_app. right. right.
      apply elem_of_cons. right. by apply elem_of_cons; left. }
    split; [symmetry; by apply push_all_step|].
    unfold pushable. rewrite Hf. by rewrite orb_true_r.
Qed.

Lemma worklist_rel_nil wl g b g' b' :
  worklist_rel pushed_toposort [] wl g b g' b' -> g' = g /\ b' = b.
Proof. induction 1; [done|done|discriminate]. Qed.

(** A pass, in any order of the work list, is [scan_local]. *)
Lemma pass_rel_scan pr g g' b :
  pass_rel pushed_toposort (select pr scan_db) g g' b -> (g', b) = scan_local pr g.
Proof.
  intros [g1 b1 g2 b2 Hw Hg]. rewrite run_globals_scan in Hg. injection Hg as <- <-.
  unfold scan_local. rewrite select_scan_db_eq in Hw.
  destruct (selected pr scan_pushout_add).
  - destruct (worklist_rel_push _ _ _ _ _ Hw) as [-> ->]; [left; apply toposort_scan|].
    by rewrite orb_false_r.
  - by destruct (worklist_rel_nil _ _ _ _ _ Hw) as [-> ->].
Qed.

Lemma engine_rel_scan pr c g g' b :
  engine_rel pushed_toposort (select pr scan_db) c g g' b -> (g', b) = scan_engine pr c g.
Proof.
  induction 1 as [g|c g g1 Hp|c g g1 g2 b Hp H IH]; cbn [scan_engine]; [done| |].
  - apply pass_rel_scan in Hp. by rewrite <- Hp.
  - apply pass_rel_scan in Hp. by rewrite <- Hp.
Qed.

Lemma run_scan_fuel pr fuel cap : forall g,
  scan_fuel g <= fuel -> is_Some (run pushed_toposort (select pr scan_db) fuel cap g).
Proof.
  induction cap as [|c IH]; intros g Hg; cbn [run]; [by eexists|].
  destruct (pass_scan_total pr fuel g Hg) as [[g1 b1] Hp]. rewrite Hp.
  pose proof (pass_rel_scan pr g g1 b1 (EngineFacts.pass_sound _ _ _ _ _ _ Hp)) as Hl.
  destruct b1; [|by eexists]. apply IH. unfold scan_local in Hl.
  destruct (selected pr scan_pushout_add); injection Hl as Hg1 Hb; [|discriminate].
  subst g1. unfold scan_fuel in *. pose proof (push_all_measure g). lia.
Qed.

(** The executable engine computes [scan_engine]: it terminates with the
    fuel [run_scan] gives it, and all its runs agree. *)
Lemma run_scan_closed pr p : run_scan pr p = scan_engine pr (prof_max_passes pr) p.
Proof.
  unfold run_scan, compile.
  destruct (run_scan_fuel pr (scan_fuel p) (prof_max_passes pr) p (le_n _)) as [[g' b] Hr].
  rewrite Hr. apply engine_rel_scan. by eapply EngineFacts.run_sound.
Qed.

Lemma scan_engine_fst pr c p :
  (scan_engine pr c p).1 =
  if selected pr scan_pushout_add && negb (c =? 0) then push_all p else p.
Proof.
  destruct c as [|c]; cbn [scan_engine]; [by rewrite andb_false_r|].
  unfold scan_local. rewrite andb_true_r.
  destruct (selected pr scan_pushout_add) eqn:Hs; [|done].
  destruct (pushable p); [|done].
  destruct c as [|c]; cbn [scan_engine]; [done|].
  unfold scan_local. rewrite Hs, pushable_push_all. simpl. apply push_all_idem.
Qed.

(** An invariant of the pushout is an invariant of the engine. *)
Lemma run_scan_invariant (P : pushed -> Prop) pr p :
  (forall g1 g2, P g1 -> push_out_dot g1 = Some g2 -> P g2) ->
  P p -> P (run_scan pr p).1.
Proof.
  intros HP Hp. unfold run_scan, compile.
  destruct (run _ _ _ _ _) as [[g' b]|] eqn:Hr; [|done]. simpl.
  eapply (EngineFacts.run_invariant _ P); [| |exact Hp|exact Hr].
  - intros r f n g1 g2 Hr' Ha Hg1 Hf. apply select_scan_db in Hr' as ->.
    injection Ha as <-. destruct n as [m|]; [discriminate|]. by apply (HP g1).
  - intros r f g1 g2 Hr'. apply select_scan_db in Hr' as ->. discriminate.
Qed.

(** Under any profile, the compiled graph keeps the contract and computes
    what the Scan computes. *)
Lemma compile_scan_sound pr sc :
  contract_ok sc = true ->
  contract_ok (p_scan (compile_scan pr sc)) = true /\
  forall n seqs inits nonseqs,
    eval_pushed (compile_scan pr sc) n seqs inits nonseqs = scan_eval sc n seqs inits nonseqs.
Proof.
  intros Hc. unfold compile_scan.
  apply (run_scan_invariant (fun g => contract_ok (p_scan g) = true /\
    forall n seqs inits nonseqs,
      eval_pushed g n seqs inits nonseqs = scan_eval sc n seqs inits nonseqs)).
  - intros g1 g2 [Hc1 He1] Ha.
    destruct (push_out_dot_sound g1 g2 Hc1 Ha) as [Hc2 He2].
    split; [done|]. intros. by rewrite He2.
  - split; [done|]. intros. unfold eval_pushed. simpl.
    by destruct (scan_eval sc n seqs inits nonseqs).
Qed.


(** The pushout rewrites only store-all-steps outputs that read no
    recurrent state; the role counts never change. *)
Lemma push_out_dot_keeps p p' :
  push_out_dot p = Some p' ->
  n_seqs (p_scan p') = n_seqs (p_scan p) /\ n_sitsot (p_scan p') = n_sitsot (p_scan p) /\
  n_nitsot (p_scan p') = n_nitsot (p_scan p) /\ n_nonseqs (p_scan p') = n_nonseqs (p_scan p) /\
  forall k o, ig_outputs (body (p_scan p)) !! k = Some o ->
    (reads_state (p_scan p) o = true \/ k < n_sitsot (p_scan p)) ->
    ig_outputs (body (p_scan p')) !! k = Some o.
Proof.
  unfold push_out_dot.
  destruct (find_candidate _ 0 _) as [[[k e] j]|] eqn:Hf; [|done]. intros [= <-].
  apply find_candidate_spec in Hf as (_ & o & Ho & Hcand). rewrite Nat.sub_0_r in Ho.
  apply candidate_spec in Hcand as (i & -> & Hk & Hi & He & ->).
  cbn [p_scan set_output n_seqs n_sitsot n_nitsot n_nonseqs body ig_outputs].
  do 4 (split; [done|]). intros k' o' Ho' Hs.
  destruct (decide (k = k')) as [<-|Hne].
  - exfalso. rewrite Ho in Ho'. injection Ho' as <-. destruct Hs as [Hs|]; [|lia].
    unfold reads_state in Hs. rewrite inputs_of_dot, existsb_app, orb_true_iff in Hs.
    unfold reads_state in He. rewrite He in Hs.
    destruct Hs as [|Hs]; [done|]. simpl in Hs. rewrite orb_false_r in Hs.
    unfold is_state_input in Hs. apply bool_decide_eq_true in Hs. lia.
  - by rewrite list_lookup_insert_ne.
Qed.

Lemma reads_state_ext a b e :
  n_seqs a = n_seqs b -> n_sitsot a = n_sitsot b -> reads_state a e = reads_state b e.
Proof. intros Hs Ht. unfold reads_state, is_state_input. by rewrite Hs, Ht. Qed.

(** Under any profile, the outputs of the Scan that read recurrent state,
    and its state updates, are those of the Scan before the rewrites. *)
Lemma compile_scan_keeps pr sc :
  n_seqs (p_scan (compile_scan pr sc)) = n_seqs sc /\
  n_sitsot (p_scan (compile_scan pr sc)) = n_sitsot sc /\
  n_nitsot (p_scan (compile_scan pr sc)) = n_nitsot sc /\
  n_nonseqs (p_scan (compile_scan pr sc)) = n_nonseqs sc /\
  forall k o, ig_outputs (body sc) !! k = Some o ->
    (reads_state sc o = true \/ k < n_sitsot sc) ->
    ig_outputs (body (p_scan (compile_scan pr sc))) !! k = Some o.
Proof.
  unfold compile_scan.
  apply (run_scan_invariant (fun g =>
    n_seqs (p_scan g) = n_seqs sc /\ n_sitsot (p_scan g) = n_sitsot sc /\
    n_nitsot (p_scan g) = n_nitsot sc /\ n_nonseqs (p_scan g) = n_nonseqs sc /\
    forall k o, ig_outputs (body sc) !! k = Some o ->
      (reads_state sc o = true \/ k < n_sitsot sc) ->
      ig_outputs (body (p_scan g)) !! k = Some o)).
  - intros g1 g2 (H1 & H2 & H3 & H4 & H5) Ha.
    destruct (push_out_dot_keeps g1 g2 Ha) as (K1 & K2 & K3 & K4 & K5).
    rewrite K1, K2, K3, K4. do 4 (split; [done|]). intros k o Ho Hs.
    apply K5; [by apply H5|]. rewrite (reads_state_ext _ sc), H2; [|done..].
    done.
  - simpl. naive_solver.
Qed.

(** A profile that excludes the pushout by name runs no Scan rewrite. *)
Lemma compile_scan_excluded pr sc :
  "scan_pushout_add" ∈ prof_exclude pr -> compile_scan pr sc = mkPushed sc [].
Proof.
  intros Hx. unfold compile_scan. rewrite run_scan_closed, scan_engine_fst.
  rewrite (EngineFacts.excluded_not_selected pr scan_pushout_add "scan_pushout_add");
    [done|done|by left].
Qed.






End ScanFacts.

(** ** The properties of the specification *)
Module Claims.
Import FG Scan Engine ScanRewrite Scenarios.

(** C1: for every Scan with a well-formed contract, the graphs compiled
    under any two profiles (in particular with the pushout rewrite enabled
    and disabled) compute the same outputs on the same inputs; both compute
    what the Scan computes. *)
Theorem pushout_equivalence sc (Hc : contract_ok sc = true) pr1 pr2 n seqs inits nonseqs :
  eval_pushed (compile_scan pr1 sc) n seqs inits nonseqs =
  eval_pushed (compile_scan pr2 sc) n seqs inits nonseqs.
Proof.
  destruct (ScanFacts.compile_scan_sound pr1 sc Hc) as [_ H1].
  destruct (ScanFacts.compile_scan_sound pr2 sc Hc) as [_ H2].
  by rewrite H1, H2.
Qed.

(** The 3-step scenario: 4-dimensional sequence vectors, a bias computed in
    the loop and a 4x5 weight matrix; the rewrite fires under the scan
    profile, not under the profile that excludes it, and both graphs give
    the same (exact) result. *)
Lemma pushout_equivalence_witness :
  p_post (compile_scan opt_mode bias_scan) = [(0, 0)] /\
  p_post (compile_scan no_opt_mode bias_scan) = [] /\
  is_Some (eval_pushed (compile_scan opt_mode bias_scan) 3 [bias_xs; bias_bs] [] [bias_w]) /\
  eval_pushed (compile_scan opt_mode bias_scan) 3 [bias_xs; bias_bs] [] [bias_w] =
  eval_pushed (compile_scan no_opt_mode bias_scan) 3 [bias_xs; bias_bs] [] [bias_w].
Proof.
  split; [vm_compute; reflexivity|].
  split; [vm_compute; reflexivity|].
  split; [vm_compute; eexists; reflexivity|].
  apply pushout_equivalence. vm_compute. reflexivity.
Defined.

(** C2: under every profile, an output of a Scan that reads the recurrent
    state (and every state update) is left in the inner graph unchanged:
    the pushout only takes products that read no recurrent state. *)
Theorem state_dependency_kept pr sc k o
  (Ho : ig_outputs (body sc) !! k = Some o)
  (Hs : reads_state sc o = true \/ k < n_sitsot sc) :
  ig_outputs (body (p_scan (compile_scan pr sc))) !! k = Some o.
Proof.
  destruct (ScanFacts.compile_scan_keeps pr sc) as (_ & _ & _ & _ & H).
  by apply H.
Qed.

(** test_dot_sitsot_output: the Dot reading the state stays in the body. *)
Lemma state_dependency_kept_witness :
  ig_outputs (body (p_scan (compile_scan opt_mode sit))) !! 1 =
  Some (EDot (EAdd (EIn 1) (EIn 0)) (EIn 2)).
Proof.
  apply (state_dependency_kept opt_mode sit 1); [reflexivity|].
  left. vm_compute. reflexivity.
Defined.

(** C3: from a consistent acyclic graph, any sequence of replace calls
    (successful or rolled back) ends on an acyclic graph: no Apply node
    transitively depends on its own output. *)
Theorem replace_all_acyclic g reqs (Hg : consistent g) (Ha : acyclic g) :
  acyclic (replace_all reqs g).2.
Proof.
  destruct (FGFacts.replace_all_inv reqs g Hg) as (_ & H & _). by apply H.
Qed.

Lemma replace_all_acyclic_witness :
  (replace_all reqs0 g0).1 = [Raised InconsistencyError; Done] /\
  acyclic (replace_all reqs0 g0).2.
Proof.
  split; [vm_compute; reflexivity|].
  apply replace_all_acyclic.
  - apply FGFacts.make_fgraph_consistent. apply (bool_decide_unpack _). vm_compute. exact I.
  - apply FGFacts.acyclicb_sound. vm_compute. reflexivity.
Defined.

(** C4: on a consistent graph with distinct node ids, a replacement whose
    proposed graph (every client edge of [old] redirected to [nw]) has an
    Apply depending on its own output raises InconsistencyError and leaves
    the graph exactly as it was; any replace that raises returns the same
    client index, the same nodes, the same graph. The other validation, the
    output arity, never fails: a replacement keeps the outputs of every node
    and the number of declared outputs, and a successful one gives the
    proposed nodes. *)
Theorem replace_rollback g old nw
  (Hg : consistent g) (Hid : NoDup (ap_id <$> fg_apply_nodes g)) :
  ((vty old = vty nw /\
    exists a, clos_trans Apply (dep_in (redirect_nodes (fg_apply_nodes g) old nw)) a a) ->
   replace g old nw = (Raised InconsistencyError, g)) /\
  (forall e g', replace g old nw = (Raised e, g') ->
   fg_clients g' = fg_clients g /\ fg_apply_nodes g' = fg_apply_nodes g /\ g' = g) /\
  ((replace g old nw).1 = Done ->
   fg_apply_nodes (replace g old nw).2 = redirect_nodes (fg_apply_nodes g) old nw) /\
  ap_outputs <$> fg_apply_nodes (replace g old nw).2 = ap_outputs <$> fg_apply_nodes g /\
  length (fg_outputs (replace g old nw).2) = length (fg_outputs g).
Proof.
  assert ((replace g old nw).1 = Done ->
    fg_apply_nodes (replace g old nw).2 = redirect_nodes (fg_apply_nodes g) old nw) as Hd.
  { destruct (replace g old nw) as [o g'] eqn:Hr. simpl. intros ->.
    by apply (FGFacts.replace_done g old nw g'). }
  split; [intros [Hty Hc]; by apply FGFacts.replace_cycle|].
  split; [intros e g' Hr; by rewrite (FGFacts.replace_failed g old nw e g' Hg Hr)|].
  split; [exact Hd|].
  destruct (FGFacts.replace_inv g old nw Hg) as (_ & Hf & _ & Hsig). split.
  - destruct (replace g old nw) as [[|e] g'] eqn:Hr; simpl in *.
    + rewrite (Hd eq_refl). clear. unfold redirect_nodes.
      induction (fg_apply_nodes g) as [|n ns IH]; [done|]. rewrite !fmap_cons, IH. done.
    + by rewrite Hf.
  - rewrite <- (length_fmap vty (fg_outputs g)), <- Hsig. by rewrite length_fmap.
Qed.

(** Replacing [x] by [z] in the chain [x -> n1 -> y -> n2 -> z] would make
    [n1] read the output of [n2], which reads the output of [n1]. *)
Lemma replace_rollback_witness :
  replace g0 x0 z0 = (Raised InconsistencyError, g0).
Proof.
  assert (consistent g0) as Hg.
  { apply FGFacts.make_fgraph_consistent. apply (bool_decide_unpack _). vm_compute. exact I. }
  assert (NoDup (ap_id <$> fg_apply_nodes g0)) as Hid.
  { apply (bool_decide_unpack _). vm_compute. exact I. }
  apply (proj1 (replace_rollback g0 x0 z0 Hg Hid)).
  split; [reflexivity|].
  assert (redirect_nodes (fg_apply_nodes g0) x0 z0 = [mkApply 1 "exp" [z0] [y0]; n2]) as ->
    by (vm_compute; reflexivity).
  exists (mkApply 1 "exp" [z0] [y0]). apply t_trans with n2; apply t_step.
  - split; [left; reflexivity|]. split; [right; left; reflexivity|].
    exists z0. split; left; reflexivity.
  - split; [right; left; reflexivity|]. split; [left; reflexivity|].
    exists y0. split; left; reflexivity.
Defined.

(** C5: a pass of replacements on a consistent graph keeps the number and
    the types of the declared outputs. *)
Theorem output_signature_kept g reqs (Hg : consistent g) :
  length (fg_outputs (replace_all reqs g).2) = length (fg_outputs g) /\
  vty <$> fg_outputs (replace_all reqs g).2 = vty <$> fg_outputs g.
Proof.
  destruct (FGFacts.replace_all_inv reqs g Hg) as (_ & _ & H).
  split; [|done]. rewrite <- (length_fmap vty (fg_outputs g)), <- H.
  by rewrite length_fmap.
Qed.

Lemma output_signature_kept_witness :
  length (fg_outputs (replace_all reqs0 g0).2) = length (fg_outputs g0) /\
  vty <$> fg_outputs (replace_all reqs0 g0).2 = vty <$> fg_outputs g0.
Proof.
  apply output_signature_kept. apply FGFacts.make_fgraph_consistent. apply (bool_decide_unpack _). vm_compute. exact I.
Defined.

(** C6: under a profile that excludes [scan_pushout_add] the Dot of the
    jacobian Scan stays in its body; with the scan rewrites included the
    rewritten body has exactly one output, not produced by a Dot. *)
Theorem tag_toggle pr (Hx : "scan_pushout_add" ∈ prof_exclude pr) :
  ig_outputs (body (p_scan (compile_scan pr jac))) =
    [EDot (EOneHot 5 (EIn 0)) (EIn 1)] /\
  exists o, ig_outputs (body (p_scan (compile_scan opt_mode jac))) = [o] /\
    forall a b, o <> EDot a b.
Proof.
  rewrite (ScanFacts.compile_scan_excluded pr jac Hx). split; [done|].
  exists (EOneHot 5 (EIn 0)). split; [vm_compute; reflexivity|done].
Qed.

Lemma tag_toggle_witness :
  ig_outputs (body (p_scan (compile_scan no_opt_mode jac))) =
    [EDot (EOneHot 5 (EIn 0)) (EIn 1)] /\
  exists o, ig_outputs (body (p_scan (compile_scan opt_mode jac))) = [o] /\
    forall a b, o <> EDot a b.
Proof. apply tag_toggle. vm_compute. left. Defined.

(** C7: Scan construction raises ContractError exactly when the declared
    roles do not match the inner graph's arities; a Scan it builds keeps a
    valid contract through the rewrites of any profile. *)
Theorem contract_at_construction ns nsit nnit nnon ig :
  (make_scan ns nsit nnit nnon ig = inr ContractError <->
   contract_ok (mkScan ns nsit nnit nnon ig) = false) /\
  forall sc, make_scan ns nsit nnit nnon ig = inl sc ->
    contract_ok sc = true /\ forall pr, contract_ok (p_scan (compile_scan pr sc)) = true.
Proof.
  unfold make_scan. split.
  - destruct (contract_ok _); split; done.
  - intros sc. destruct (contract_ok _) eqn:Hc; [|done]. intros [= <-].
    split; [done|]. intros pr. by apply ScanFacts.compile_scan_sound.
Qed.

Lemma contract_at_construction_witness :
  make_scan 1 0 1 1 bad_ig = inr ContractError /\
  contract_ok (p_scan (compile_scan opt_mode jac)) = true.
Proof.
  split.
  - apply (contract_at_construction 1 0 1 1 bad_ig). vm_compute. reflexivity.
  - apply (contract_at_construction 1 0 1 1 (body jac)); [vm_compute; reflexivity].
Defined.

(** C8: for every profile and every graph around a Scan, running the engine
    a second time on its output with the same profile gives that output
    back, flagged converged when the cap allows a pass; every run of the
    engine relation from it, whatever order it serves its work list in,
    ends on it too. *)
Theorem rerun_fixpoint pr p :
  run_scan pr (run_scan pr p).1 = ((run_scan pr p).1, negb (prof_max_passes pr =? 0)) /\
  forall g b, engine_rel pushed_toposort (select pr scan_db) (prof_max_passes pr)
    (run_scan pr p).1 g b -> g = (run_scan pr p).1.
Proof.
  assert (run_scan pr (run_scan pr p).1 =
    ((run_scan pr p).1, negb (prof_max_passes pr =? 0))) as Hq.
  { rewrite (ScanFacts.run_scan_closed pr p), ScanFacts.scan_engine_fst,
      ScanFacts.run_scan_closed.
    destruct (prof_max_passes pr) as [|c]; [by rewrite andb_false_r|].
    rewrite andb_true_r. cbn [scan_engine]. unfold scan_local.
    destruct (selected pr scan_pushout_add) eqn:Hs; [|done].
    by rewrite ScanFacts.push_all_idem, ScanFacts.pushable_push_all. }
  split; [exact Hq|]. intros g b H.
  apply ScanFacts.engine_rel_scan in H. rewrite <- ScanFacts.run_scan_closed, Hq in H.
  by injection H.
Qed.

Lemma rerun_fixpoint_witness :
  run_scan opt_mode (run_scan opt_mode (mkPushed nit [])).1 =
  ((run_scan opt_mode (mkPushed nit [])).1, true).
Proof. exact (proj1 (rerun_fixpoint opt_mode (mkPushed nit []))). Defined.

(** C9: compilation is deterministic: two runs of the engine relation with
    the same profile (the same selected rules, the same cap) from the same
    graph, each serving its work list in any order, give the same graph and
    the same convergence flag, those of the executable engine. *)
Theorem compile_deterministic pr p g1 b1 g2 b2
  (H1 : engine_rel pushed_toposort (select pr scan_db) (prof_max_passes pr) p g1 b1)
  (H2 : engine_rel pushed_toposort (select pr scan_db) (prof_max_passes pr) p g2 b2) :
  g1 = g2 /\ b1 = b2 /\ run_scan pr p = (g1, b1).
Proof.
  apply ScanFacts.engine_rel_scan in H1, H2.
  rewrite ScanFacts.run_scan_closed, <- H1. rewrite <- H2 in H1.
  injection H1 as -> ->. done.
Qed.

Lemma compile_deterministic_witness :
  run_scan opt_mode (mkPushed nit []) = (compile_scan opt_mode nit, true).
Proof.
  assert (run pushed_toposort (select opt_mode scan_db) (scan_fuel (mkPushed nit []))
    (prof_max_passes opt_mode) (mkPushed nit []) = Some (compile_scan opt_mode nit, true)) as Hr
    by (vm_compute; reflexivity).
  pose proof (EngineFacts.run_sound _ _ _ _ _ _ _ Hr) as H.
  exact (proj2 (proj2 (compile_deterministic opt_mode (mkPushed nit []) _ _ _ _ H H))).
Defined.




End Claims.

(** ** Further properties of setup.py and of the test helpers *)
Module SetupFacts.
Import Setup.

Lemma str_split_nonempty sep s : str_split sep s <> [].
Proof.
  induction s as [|c s IH]; simpl; [done|].
  destruct (Ascii.ascii_dec c sep); [done|]. by destruct (str_split sep s).
Qed.

Lemma str_split_app sep s1 s2 :
  str_split sep (s1 +:+ String sep s2) = str_split sep s1 ++ str_split sep s2.
Proof.
  induction s1 as [|c s1 IH]; simpl.
  - by destruct (Ascii.ascii_dec sep sep).
  - destruct (Ascii.ascii_dec c sep); [by rewrite IH|].
    rewrite IH. pose proof (str_split_nonempty sep s1) as Hn.
    by destruct (str_split sep s1).
Qed.

Lemma str_split_pieces sep s : Forall (fun p => str_mem sep p = false) (str_split sep s).
Proof.
  induction s as [|c s IH]; simpl; [by repeat constructor|].
  destruct (Ascii.ascii_dec c sep) as [|Hc]; [by constructor|].
  pose proof (str_split_nonempty sep s) as Hn.
  destruct (str_split sep s) as [|p ps]; [done|].
  inversion IH as [|? ? Hp Hps]; subst. constructor; [|done].
  simpl. by destruct (Ascii.ascii_dec c sep).
Qed.

Lemma str_split_free sep s : str_mem sep s = false -> str_split sep s = [s].
Proof.
  induction s as [|c s IH]; simpl; [done|].
  destruct (Ascii.ascii_dec c sep); [done|]. intros H. by rewrite IH.
Qed.

Lemma classifiers_app s1 s2 :
  classifiers (s1 +:+ String newline s2) = classifiers s1 ++ classifiers s2.
Proof. unfold classifiers. by rewrite str_split_app, List.filter_app. Qed.

(** X1: every classifier line kept is non-empty and holds no newline. *)
Theorem classifiers_clean s f :
  In f (classifiers s) -> f <> EmptyString /\ str_mem newline f = false.
Proof.
  unfold classifiers. rewrite filter_In. intros [Hin Hf]. split.
  - intros ->. done.
  - pose proof (str_split_pieces newline s) as H. rewrite Forall_forall in H.
    apply H. by apply list_elem_of_In.
Qed.

Lemma classifiers_clean_witness :
  In "License :: OSI Approved :: BSD License"
    (classifiers (String newline ("License :: OSI Approved :: BSD License" +:+
                  String newline EmptyString))) /\
  "License :: OSI Approved :: BSD License" <> EmptyString /\
  str_mem newline "License :: OSI Approved :: BSD License" = false.
Proof.
  assert (In "License :: OSI Approved :: BSD License"
    (classifiers (String newline ("License :: OSI Approved :: BSD License" +:+
                  String newline EmptyString)))) as H by (vm_compute; left; reflexivity).
  split; [exact H|]. exact (classifiers_clean _ _ H).
Defined.

(** X2: the text of newline-terminated lines, none empty and none holding a
    newline, is parsed back to exactly those lines. *)
Theorem classifiers_unlines ls
  (H : Forall (fun l => l <> EmptyString /\ str_mem newline l = false) ls) :
  classifiers (unlines ls) = ls.
Proof.
  induction H as [|l ls [Hne Hl] _ IH]; [done|]. simpl.
  rewrite classifiers_app, IH. unfold classifiers. rewrite str_split_free by done.
  simpl. by destruct l.
Qed.

Lemma classifiers_unlines_witness :
  Forall (fun l => l <> EmptyString /\ str_mem newline l = false)
    ["Programming Language :: Python"; "Operating System :: Unix"] /\
  classifiers (unlines ["Programming Language :: Python"; "Operating System :: Unix"]) =
    ["Programming Language :: Python"; "Operating System :: Unix"].
Proof.
  assert (Forall (fun l => l <> EmptyString /\ str_mem newline l = false)
    ["Programming Language :: Python"; "Operating System :: Unix"]) as H
    by (repeat constructor; vm_compute; done).
  split; [exact H|]. exact (classifiers_unlines _ H).
Defined.

(** X3: the parse distributes over joining two texts with a newline; in
    particular blank lines anywhere are dropped. *)
Theorem classifiers_join s1 s2 :
  classifiers (s1 +:+ String newline s2) = classifiers s1 ++ classifiers s2.
Proof. unfold classifiers. by rewrite str_split_app, List.filter_app. Qed.

(** X4: the requirements always start with the seven base packages, and
    [dataclasses] is required exactly on Pythons older than 3.7. *)
Theorem install_requires_dataclasses major minor rest :
  (exists extra, install_requires (major :: minor :: rest) = base_requires ++ extra) /\
  ("dataclasses" ∈ install_requires (major :: minor :: rest) <->
   (major < 3 \/ major = 3 /\ minor < 7)%Z).
Proof.
  unfold install_requires.
  change (take 2 (major :: minor :: rest)) with [major; minor].
  assert (tuple_lt [major; minor] [3; 7]%Z = true <-> (major < 3 \/ major = 3 /\ minor < 7)%Z)
    as Ht.
  { simpl. destruct (Z.ltb_spec major 3); [split; [intros _; by left|done]|].
    destruct (Z.eqb_spec major 3) as [->|]; [|split; [done|intros [|[]]; lia]].
    destruct (Z.ltb_spec minor 7).
    - split; [intros _; by right|done].
    - destruct (minor =? 7)%Z; split; (done || intros [|[]]; lia). }
  destruct (tuple_lt [major; minor] [3; 7]%Z) eqn:Hlt.
  - split; [by exists ["dataclasses"]|]. split; [intros _; by apply Ht|].
    intros _. apply elem_of_app. right. by apply list_elem_of_singleton.
  - split; [exists []; by rewrite app_nil_r|]. split.
    + intros Hin. exfalso. vm_compute in Hin. repeat (apply elem_of_cons in Hin as [Hin|Hin];
        [discriminate|]). by apply elem_of_nil in Hin.
    + intros Hv. apply Ht in Hv. congruence.
Qed.

End SetupFacts.

Module GaussNewtonFacts.
Import GaussNewton.

Section Laws.
Context {T : Type} (add mul : T -> T -> T).

(** X5: with a damping that adds nothing, the damped products are the
    undamped ones, cut to the shorter of the two lists: a parameter without
    a direction vector (or the converse) is silently dropped. *)
Theorem damped_zero (zero : T) (Hz : forall x y, add x (mul zero y) = x) JHJv v :
  damped add mul JHJv v zero = take (length v) JHJv.
Proof.
  revert v. induction JHJv as [|a J IH]; intros [|b v]; simpl; [done..|].
  unfold damped in *. simpl. by rewrite Hz, IH.
Qed.

(** X6: damping twice with the same vectors is damping once with the sum
    of the two dampings, when [+] is associative and [*] distributes over
    the sum of the dampings. *)
Theorem damped_twice
  (Hassoc : forall x y z, add (add x y) z = add x (add y z))
  (Hdist : forall d1 d2 y, add (mul d1 y) (mul d2 y) = mul (add d1 d2) y)
  JHJv v d1 d2 :
  damped add mul (damped add mul JHJv v d1) v d2 = damped add mul JHJv v (add d1 d2).
Proof.
  revert v. induction JHJv as [|a J IH]; intros [|b v]; simpl; [done..|].
  unfold damped in *. simpl. by rewrite Hassoc, Hdist, IH.
Qed.

End Laws.

Lemma damped_zero_witness :
  damped Z.add Z.mul [5; 7; 9]%Z [1; 2]%Z 0%Z = [5; 7]%Z.
Proof. apply (damped_zero Z.add Z.mul 0%Z). intros. lia. Defined.

Lemma damped_twice_witness :
  damped Z.add Z.mul (damped Z.add Z.mul [5; 7]%Z [1; 2]%Z 3%Z) [1; 2]%Z 4%Z =
  damped Z.add Z.mul [5; 7]%Z [1; 2]%Z 7%Z.
Proof. apply (damped_twice Z.add Z.mul); intros; lia. Defined.

End GaussNewtonFacts.
